(** * Block state transition and storage upgrades of go-earthdollar

    A shallow embedding of [core/state_processor.go] (block processing and
    mining rewards) and of the two start-up routines of the [ed] package
    ([upgradeChainDatabase] and [addMipmapBloomBins]), with the properties
    the specification states about them. *)

From Stdlib Require Import ZArith Lia Ascii String DecimalString.
From stdpp Require Import base option list gmap strings sorting.

(** ** math/big: integers behind pointers

    A [*big.Int] is a pointer to a mutable integer.  The receiver of
    [Add], [Sub], [Mul], [Div] and [Set] is overwritten in place, so two
    copies of one pointer see one value.  The cells live in a heap that
    is a list indexed by location. *)

Module Big.

Abbreviation loc := nat (only parsing).

(** An operand is either a cell of the heap or an integer that the
    embedded code only reads (header fields, package-level constants). *)
Inductive ref :=
| Ptr (l : loc)
| Imm (v : Z).

(** [Div] is Euclidean division: the remainder is never negative. *)
Definition euclid_div (x y : Z) : Z := (Z.sgn y * (x / Z.abs y))%Z.

Definition big8 : ref := Imm 8.
Definition big32 : ref := Imm 32.

End Big.

(** ** core: data *)

Abbreviation Address := string (only parsing).
Abbreviation Hash := string (only parsing).
Abbreviation Error := string (only parsing).

Record Log := mkLog {
  logAddress : Address;
  logTopics : list Hash;
  logData : string
}.

Record Header := mkHeader {
  Number : Z;
  Coinbase : Address;
  GasLimit : Z
}.

Record Transaction := mkTransaction {
  txHash : Hash;
  txNonce : N;
  txFrom : Address;
  txTo : option Address;
  txData : string
}.

Record Block := mkBlock {
  blockHeader : Header;
  blockHash : Hash;
  Transactions : list Transaction;
  Uncles : list Header
}.

Record Receipt := mkReceipt {
  PostState : string;
  CumulativeGasUsed : Z;
  TxHash : Hash;
  GasUsed : Z;
  ContractAddress : option Address;
  Logs : list Log;
  Bloom : string
}.

(** Modelled from the spec: the world state ([state.StateDB], package
    [core/state]) maps an address to a balance, records the logs of each
    transaction by transaction hash, and remembers the transaction being
    recorded. *)
Record StateDB := mkStateDB {
  balances : gmap string Z;
  txlogs : gmap string (list Log);
  thash : Hash;
  bhash : Hash;
  txIndex : nat
}.

Definition GetBalance (s : StateDB) (a : Address) : Z :=
  default 0%Z (balances s !! a).

(** What the run observes from outside: every call of the transaction
    executor with what it returned (the gas used or an error) and every
    balance credit, in the order they happen. *)
Inductive Event :=
| EvApply (tx : Transaction) (res : Z + Error)
| EvCredit (a : Address) (amount : Z).

(** The machine: the one world state that [statedb] points to, the heap
    of [big.Int] cells, and the events so far. *)
Record Mach := mkMach {
  statedb : StateDB;
  heap : list Z;
  events : list Event
}.

Definition set_statedb (f : StateDB → StateDB) (m : Mach) : Mach :=
  mkMach (f (statedb m)) (heap m) (events m).
Definition set_heap (f : list Z → list Z) (m : Mach) : Mach :=
  mkMach (statedb m) (f (heap m)) (events m).
Definition emit (e : Event) (m : Mach) : Mach :=
  mkMach (statedb m) (heap m) (events m ++ [e]).

(** Computations over the machine; [None] is a run-time panic. *)
Definition M (A : Type) : Type := Mach → option (A * Mach).

#[export] Instance M_ret : MRet M := λ A a m, Some (a, m).
#[export] Instance M_bind : MBind M := λ A B k c m,
  match c m with
  | Some (a, m') => k a m'
  | None => None
  end.

Definition panic {A} : M A := λ _, None.
Definition get_mach : M Mach := λ m, Some (m, m).
Definition modify (f : Mach → Mach) : M unit := λ m, Some (tt, f m).

Module BigOps.
Import Big.

Definition load (x : ref) : M Z :=
  match x with
  | Imm v => mret v
  | Ptr l => m ← get_mach;
             match heap m !! l with
             | Some v => mret v
             | None => panic
             end
  end.

Definition store (l : loc) (v : Z) : M loc :=
  m ← get_mach;
  if decide (l < length (heap m))
  then _ ← modify (set_heap (λ h, <[l:=v]> h)); mret l
  else panic.

(** [new(big.Int)] *)
Definition new_Int : M loc :=
  m ← get_mach;
  _ ← modify (set_heap (λ h, h ++ [0%Z]));
  mret (length (heap m)).

Definition Set_ (z : loc) (x : ref) : M loc :=
  a ← load x; store z a.
Definition Add (z : loc) (x y : ref) : M loc :=
  a ← load x; b ← load y; store z (a + b)%Z.
Definition Sub (z : loc) (x y : ref) : M loc :=
  a ← load x; b ← load y; store z (a - b)%Z.
Definition Mul (z : loc) (x y : ref) : M loc :=
  a ← load x; b ← load y; store z (a * b)%Z.
Definition Div (z : loc) (x y : ref) : M loc :=
  a ← load x; b ← load y;
  if decide (b = 0%Z) then panic else store z (euclid_div a b).

(** [big.NewInt(v)] *)
Definition NewInt (v : Z) : M loc :=
  z ← new_Int; store z v.

End BigOps.

(** ** core/state_processor.go *)

Module Core.
Import Big BigOps.

(** Modelled from the spec: the operations of the world state that the
    processor consumes ([StartRecord], [GetLogs], [AddBalance]) and
    whose code is in [core/state]: begin the recording of the logs of a
    transaction, retrieve logs by transaction hash, add to the balance
    of an address.  The [statedb] argument of the Go functions is the
    pointer to the one world state of the machine and is left
    implicit. *)
Definition StartRecord (th bh : Hash) (ti : nat) : M unit :=
  modify (set_statedb (λ s,
    mkStateDB (balances s) (txlogs s) th bh ti)).

Definition GetLogs (h : Hash) : M (list Log) :=
  m ← get_mach; mret (default [] (txlogs (statedb m) !! h)).

Definition credit (a : Address) (v : Z) (s : StateDB) : StateDB :=
  mkStateDB (<[a := (GetBalance s a + v)%Z]> (balances s))
            (txlogs s) (thash s) (bhash s) (txIndex s).

Definition AddBalance (addr : Address) (amount : ref) : M unit :=
  v ← load amount;
  modify (λ m, emit (EvCredit addr v) (set_statedb (credit addr v) m)).

(** The result of [Process]: a nil slice is the empty list. *)
Record ProcessResult := mkResult {
  resReceipts : list Receipt;
  resLogs : list Log;
  resUsedGas : loc;
  resErr : option Error
}.

Section StateProcessor.

(** [BlockReward] is a package-level constant declared in another
    file of [core]. *)
Variable BlockReward : Z.

(** The transaction executor, [ApplyMessage(NewEnv(statedb, bc, tx,
    header), tx, gp)]: it may change the world state and the gas pool
    and returns the gas used or an error. *)
Variable ApplyMessage :
  StateDB → Z → Header → Transaction → StateDB * Z * (Z + Error).

(** [statedb.IntermediateRoot().Bytes()], [crypto.CreateAddress] and
    [types.CreateBloom] over the logs of one receipt. *)
Variable IntermediateRoot : StateDB → string.
Variable CreateAddress : Address → N → Address.
Variable CreateBloom : list Log → string.

(** [MessageCreatesContract], from another file of [core]: a message
    without a recipient creates a contract. *)
Definition MessageCreatesContract (tx : Transaction) : bool :=
  match txTo tx with None => true | Some _ => false end.

Definition callApplyMessage (header : Header) (tx : Transaction)
    (gp : loc) : M (Z + Error) :=
  g ← load (Ptr gp);
  m ← get_mach;
  let '(s', g', res) := ApplyMessage (statedb m) g header tx in
  _ ← modify (λ m, emit (EvApply tx res) (set_statedb (λ _, s') m));
  _ ← store gp g';
  mret res.

Definition ApplyTransaction (gp : loc) (header : Header)
    (tx : Transaction) (usedGas : loc)
    : M (Receipt * list Log * Z + Error) :=
  res ← callApplyMessage header tx gp;
  match res with
  | inr err => mret (inr err)
  | inl gas =>
      _ ← Add usedGas (Ptr usedGas) (Imm gas);
      m ← get_mach;
      cumulative ← load (Ptr usedGas);
      logs ← GetLogs (txHash tx);
      let receipt :=
        mkReceipt (IntermediateRoot (statedb m)) cumulative
                  (txHash tx) gas
                  (if MessageCreatesContract tx
                   then Some (CreateAddress (txFrom tx) (txNonce tx))
                   else None)
                  logs (CreateBloom logs) in
      mret (inl (receipt, logs, gas))
  end.

(** The body of the loop over the uncles, up to the append. *)
Definition uncle_reward (header uncle : Header) (r : loc)
    (rewards : list loc) : M (list loc) :=
  _ ← Add r (Imm (Number uncle)) big8;
  _ ← Sub r (Ptr r) (Imm (Number header));
  _ ← Mul r (Ptr r) (Imm BlockReward);
  _ ← Div r (Ptr r) big8;
  mret (rewards ++ [r]).

(** The rest of the body: the bonus of the including miner. *)
Definition miner_bonus (r miner_reward : loc) : M unit :=
  _ ← Div r (Imm BlockReward) big32;
  _ ← Add miner_reward (Ptr miner_reward) (Ptr r);
  mret tt.

Fixpoint accumulate_loop (header : Header) (r miner_reward : loc)
    (uncles : list Header) (rewards : list loc) : M (list loc) :=
  match uncles with
  | [] => mret rewards
  | uncle :: rest =>
      rewards' ← uncle_reward header uncle r rewards;
      _ ← miner_bonus r miner_reward;
      accumulate_loop header r miner_reward rest rewards'
  end.

Definition AccumulateRewards (header : Header) (uncles : list Header)
    : M (list loc) :=
  z ← new_Int;
  miner_reward ← Set_ z (Imm BlockReward);
  r ← new_Int;
  rewards ← accumulate_loop header r miner_reward uncles [];
  mret (rewards ++ [miner_reward]).

Fixpoint pay_loop (uncles : list Header) (rewards : list loc)
    (i : nat) : M nat :=
  match uncles with
  | [] => mret i
  | uncle :: rest =>
      match rewards !! i with
      | None => panic
      | Some p =>
          _ ← AddBalance (Coinbase uncle) (Ptr p);
          pay_loop rest rewards (S i)
      end
  end.

Definition PayRewards (header : Header) (uncles : list Header)
    (rewards : list loc) : M unit :=
  i ← pay_loop uncles rewards 0;
  match rewards !! i with
  | None => panic
  | Some p => AddBalance (Coinbase header) (Ptr p)
  end.

Fixpoint process_txs (block : Block) (header : Header) (gp used : loc)
    (i : nat) (txs : list Transaction)
    (receipts : list Receipt) (allLogs : list Log)
    : M (list Receipt * list Log + Error) :=
  match txs with
  | [] => mret (inl (receipts, allLogs))
  | tx :: rest =>
      _ ← StartRecord (txHash tx) (blockHash block) i;
      res ← ApplyTransaction gp header tx used;
      match res with
      | inr err => mret (inr err)
      | inl (receipt, logs, _) =>
          process_txs block header gp used (S i) rest
                      (receipts ++ [receipt]) (allLogs ++ logs)
      end
  end.

Definition Process (block : Block) : M ProcessResult :=
  totalUsedGas ← NewInt 0;
  let header := blockHeader block in
  z ← new_Int;
  gp ← Add z (Ptr z) (Imm (GasLimit header));
  res ← process_txs block header gp totalUsedGas 0
                    (Transactions block) [] [];
  match res with
  | inr err => mret (mkResult [] [] totalUsedGas (Some err))
  | inl (receipts, allLogs) =>
      rewards ← AccumulateRewards header (Uncles block);
      _ ← PayRewards header (Uncles block) rewards;
      mret (mkResult receipts allLogs totalUsedGas None)
  end.

(** The values a list of pointers holds in a given heap. *)
Definition values (h : list Z) (ps : list loc) : list (option Z) :=
  (λ p, h !! p) <$> ps.

End StateProcessor.

End Core.

(** ** ed: upgrading the chain database at start-up *)

Module Ed.

(** [[]byte("...")] *)
Definition bytes_of (s : string) : list ascii := list_ascii_of_string s.

(** [bytes.HasPrefix], [bytes.HasSuffix] and [bytes.TrimPrefix]. *)
Definition HasPrefix (s p : list ascii) : bool :=
  bool_decide (p `prefix_of` s).
Definition HasSuffix (s p : list ascii) : bool :=
  bool_decide (p `suffix_of` s).
Definition TrimPrefix (s p : list ascii) : list ascii :=
  if HasPrefix s p then drop (length p) s else s.

Inductive DbKind :=
| LDBDatabase
| OtherDatabase.

Inductive DbError :=
| ErrNotFound
| ErrIO (key : list ascii)
| ErrCorrupt (number : N)
| ErrEncode.

(** Every write the store is asked for, in order; a write that the
    store refuses is recorded as failed. *)
Inductive Op :=
| OpPut (key value : list ascii)
| OpDelete (key : list ascii)
| OpFailed (key : list ascii).

(** Modelled from the spec: the persisted store ([eddb.Database],
    package [eddb]) is a byte-oriented map with get, put
    and delete by key and iteration over its keys; a read or a write
    can fail ([StorageIO]).  [kind] tells the LevelDB-backed
    implementation, the only one with an iterator, from any other;
    [bad_reads] and [bad_writes] are the keys on which the underlying
    storage fails. *)
Record Database := mkDb {
  kind : DbKind;
  data : gmap (list ascii) (list ascii);
  bad_reads : gset (list ascii);
  bad_writes : gset (list ascii);
  oplog : list Op
}.

Definition with_data (f : gmap (list ascii) (list ascii)
                          → gmap (list ascii) (list ascii))
    (o : Op) (db : Database) : Database :=
  mkDb (kind db) (f (data db)) (bad_reads db) (bad_writes db)
       (oplog db ++ [o]).

Definition Get (db : Database) (key : list ascii)
    : list ascii * option DbError :=
  if decide (key ∈ bad_reads db) then ([], Some (ErrIO key))
  else match data db !! key with
       | Some v => (v, None)
       | None => ([], Some ErrNotFound)
       end.

Definition Put (key value : list ascii) (db : Database)
    : option DbError * Database :=
  if decide (key ∈ bad_writes db)
  then (Some (ErrIO key), with_data id (OpFailed key) db)
  else (None, with_data (insert key value) (OpPut key value) db).

Definition Delete (key : list ascii) (db : Database)
    : option DbError * Database :=
  if decide (key ∈ bad_writes db)
  then (Some (ErrIO key), with_data id (OpFailed key) db)
  else (None, with_data (delete key) (OpDelete key) db).

(** The keys in the order of the iterator: bytewise lexicographic. *)
Fixpoint bytes_leb (a b : list ascii) : bool :=
  match a, b with
  | [], _ => true
  | _ :: _, [] => false
  | x :: a', y :: b' =>
      if (N_of_ascii x <? N_of_ascii y)%N then true
      else if (N_of_ascii x =? N_of_ascii y)%N then bytes_leb a' b'
      else false
  end.

Definition bytes_le : relation (list ascii) :=
  λ a b, Is_true (bytes_leb a b).

#[export] Instance bytes_le_dec : RelDecision bytes_le :=
  λ a b, Is_true_dec (bytes_leb a b).

(** [db.NewIterator()] walks a snapshot of the store taken when the
    iterator is created. *)
Definition iterator_keys (db : Database) : list (list ascii) :=
  merge_sort bytes_le (map_to_list (data db)).*1.

(** How a call ends: it returns (an error or nil), it panics, or the
    steps allowed to it ran out. *)
Inductive Outcome :=
| Returned (err : option DbError) (db : Database)
| Panicked (db : Database)
| OutOfFuel (db : Database).

(** [if err := step; err != nil { return err }] *)
Definition try (step : Database → option DbError * Database)
    (rest : Database → Outcome) (db : Database) : Outcome :=
  match step db with
  | (Some err, db') => Returned (Some err) db'
  | (None, db') => rest db'
  end.

(** The functions of [core] and [common] that the two routines call;
    their code is in those packages.  A legacy record decodes
    to a block or not at all; a block has a hash and the three
    encodings that the split writes; the key of each new record is
    derived from the hash of its block. *)
Record CoreDb := mkCoreDb {
  OldBlock : Type;
  decodeOld : list ascii → option OldBlock;
  BytesToHash : list ascii → list ascii;
  Hash_ : OldBlock → list ascii;
  tdKey : list ascii → list ascii;
  bodyKey : list ascii → list ascii;
  headerKey : list ascii → list ascii;
  encodeTd : OldBlock → list ascii;
  encodeBody : OldBlock → list ascii;
  encodeHeader : OldBlock → list ascii
}.

Definition LastBlock : list ascii := bytes_of "LastBlock".
Definition blockPrefix : list ascii := bytes_of "block-hash-".

Section Migrator.
Variable C : CoreDb.

(** Modelled from the spec: a legacy record is the combined encoding
    of a block under the key [block-hash-<hash>];
    [core.GetBlockByHashOld] returns the block, or nil when the
    record is missing, empty or does not decode.  It returns no
    error, so a failed read gives nil as well. *)
Definition GetBlockByHashOld (db : Database) (hash : list ascii)
    : option (OldBlock C) :=
  match Get db (blockPrefix ++ hash) with
  | ([], _) => None
  | (record, _) => decodeOld C record
  end.

(** Modelled from the spec: each of the three writers stores one
    record (total difficulty, body, header) and returns the error of
    the store, if any. *)
Definition WriteTd (block : OldBlock C) : Database → _ :=
  Put (tdKey C (Hash_ C block)) (encodeTd C block).
Definition WriteBody (block : OldBlock C) : Database → _ :=
  Put (bodyKey C (Hash_ C block)) (encodeBody C block).
Definition WriteHeader (block : OldBlock C) : Database → _ :=
  Put (headerKey C (Hash_ C block)) (encodeHeader C block).

(** The loop over the iterator, followed by [rest]. *)
Fixpoint upgrade_loop (head : list ascii) (keys : list (list ascii))
    (rest : Database → Outcome) (db : Database) : Outcome :=
  match keys with
  | [] => rest db
  | key :: keys' =>
      if negb (HasPrefix key blockPrefix)
      then upgrade_loop head keys' rest db
      else if HasSuffix key head
      then upgrade_loop head keys' rest db
      else
        match GetBlockByHashOld db
                (BytesToHash C (TrimPrefix key blockPrefix)) with
        | None => Panicked db
        | Some block =>
            try (WriteTd block)
           (try (WriteBody block)
           (try (WriteHeader block)
           (try (Delete key)
                (upgrade_loop head keys' rest)))) db
        end
  end.

(** The last step: the head block. *)
Definition upgrade_head (head : list ascii) (db : Database) : Outcome :=
  match GetBlockByHashOld db head with
  | None => Panicked db
  | Some current =>
      try (WriteTd current)
     (try (WriteBody current)
     (try (WriteHeader current)
          (Returned None))) db
  end.

Definition upgradeChainDatabase (db : Database) : Outcome :=
  match Get db LastBlock with
  | (_, Some _) => Returned None db
  | (record, None) =>
      let head := BytesToHash C record in
      match GetBlockByHashOld db head with
      | None => Returned None db
      | Some _ =>
          match kind db with
          | LDBDatabase =>
              upgrade_loop head (iterator_keys db) (upgrade_head head) db
          | OtherDatabase => Returned None db
          end
      end
  end.

End Migrator.

(** *** The bloom index *)

Definition mipmapVersion : N := 2.
Definition versionKey : list ascii := bytes_of "setting-mipmap-version".

(** [common.Hash{}] *)
Definition zeroHash : list ascii := replicate 32 zero.

(** [NumberU64()]: the low 64 bits of the block number. *)
Definition NumberU64 (block : Block) : N :=
  (Z.to_N (Z.abs (Number (blockHeader block))) mod 2 ^ 64)%N.

(** What the bloom index builder takes from [core], [common] and
    [rlp]: the codec of the version marker, the lookup of a block by
    hash, the receipts of a block, the key of the canonical hash of a
    number, and the key and the content of the bloom bin of a
    number. *)
Record BloomDb := mkBloomDb {
  decodeVersion : list ascii → option N;
  encodeVersion : N → option (list ascii);
  hashOfBytes : list ascii → list ascii;
  GetBlock : Database → list ascii → option Block;
  GetBlockReceipts : Database → list ascii → list Receipt;
  canonicalKey : N → list ascii;
  mipmapKey : N → list ascii;
  bloomBin : Database → N → list Receipt → list ascii
}.

Section BloomIndex.
Variable B : BloomDb.

(** Modelled from the spec: the head pointer is the record under
    [LastBlock]; without it the head hash is the zero hash. *)
Definition GetHeadBlockHash (db : Database) : list ascii :=
  match Get db LastBlock with
  | ([], _) => zeroHash
  | (record, _) => hashOfBytes B record
  end.

(** Modelled from the spec: the canonical hash of a number is looked
    up by number; a missing record gives the zero hash. *)
Definition GetCanonicalHash (db : Database) (number : N) : list ascii :=
  match Get db (canonicalKey B number) with
  | ([], _) => zeroHash
  | (record, _) => hashOfBytes B record
  end.

(** Modelled from the spec: the bloom bin of a block is written under
    a key derived from the block number. *)
Definition WriteMipmapBloom (db : Database) (number : N)
    (receipts : list Receipt) : option DbError * Database :=
  Put (mipmapKey B number) (bloomBin B db number receipts) db.

(** The loop [for i := uint64(0); i <= number; i++]; [fuel] bounds
    the number of tests of the loop condition. *)
Fixpoint bloom_loop (fuel : nat) (i number : N) (db : Database)
    : Outcome :=
  match fuel with
  | O => OutOfFuel db
  | S fuel' =>
      if (i <=? number)%N then
        let hash := GetCanonicalHash db i in
        if decide (hash = zeroHash)
        then Returned (Some (ErrCorrupt i)) db
        else
          let db' :=
            (WriteMipmapBloom db i (GetBlockReceipts B db hash)).2 in
          bloom_loop fuel' ((i + 1) mod 2 ^ 64)%N number db'
      else Returned None db
  end.

(** The deferred function: when the body returned nil, encode the
    version and store it; its error, if any, is what the call
    returns. *)
Definition store_version (o : Outcome) : Outcome :=
  match o with
  | Returned None db =>
      match encodeVersion B mipmapVersion with
      | None => Returned (Some ErrEncode) db
      | Some val =>
          let '(err, db') := Put versionKey val db in
          Returned err db'
      end
  | _ => o
  end.

Definition version_is_current (db : Database) : bool :=
  match Get db versionKey with
  | ([], _) => false
  | (record, _) =>
      bool_decide (decodeVersion B record = Some mipmapVersion)
  end.

(** The body after the version check: nothing to do on a clean
    database, the walk over the numbers otherwise. *)
Definition bloom_body (fuel : nat) (db : Database) : Outcome :=
  match GetBlock B db (GetHeadBlockHash db) with
  | None => Returned None db
  | Some latestBlock => bloom_loop fuel 0 (NumberU64 latestBlock) db
  end.

Definition addMipmapBloomBins (fuel : nat) (db : Database) : Outcome :=
  if version_is_current db then Returned None db
  else store_version (bloom_body fuel db).

End BloomIndex.

End Ed.

(** ** Notions the properties are stated with *)

Module Views.
Import Big BigOps Core Ed.

Section Rewards.
Variable BlockReward : Z.

(** The reward of one uncle as the loop computes it, before the
    append: the quotient is the floor. *)
Definition uncleReward (header uncle : Header) : Z :=
  ((Number uncle + 8 - Number header) * BlockReward / 8)%Z.

(** The formula with a quotient that truncates toward zero. *)
Definition uncleReward_truncated (header uncle : Header) : Z :=
  ((Number uncle + 8 - Number header) * BlockReward ÷ 8)%Z.

Definition minerBonus : Z := (BlockReward / 32)%Z.

(** The shared cell after the loop: untouched without uncles, the
    miner's bonus otherwise. *)
Definition shared_cell (uncles : list Header) (r0 : Z) : Z :=
  match uncles with
  | [] => r0
  | _ :: _ => minerBonus
  end.

(** The run of [AccumulateRewards] cut right after the append of the
    reward of uncle number [i]. *)
Definition AccumulateRewards_until (header : Header)
    (uncles : list Header) (i : nat) : M (list loc) :=
  z ← new_Int;
  miner_reward ← Set_ z (Imm BlockReward);
  r ← new_Int;
  rewards ← accumulate_loop BlockReward header r miner_reward
                            (take i uncles) [];
  match uncles !! i with
  | Some uncle => uncle_reward BlockReward header uncle r rewards
  | None => panic
  end.

(** The list the specification describes: one truncated quotient per
    uncle, then the miner's reward. *)
Definition spec_rewards (header : Header) (uncles : list Header)
    : list Z :=
  (uncleReward_truncated header <$> uncles)
    ++ [(BlockReward + Z.of_nat (length uncles) * (BlockReward / 32))%Z].

End Rewards.

Definition credits (bs : list (Address * Z)) (s : StateDB) : StateDB :=
  foldl (λ s b, credit b.1 b.2 s) s bs.

(** The total credited to one address by a list of credits. *)
Definition credited_to (a : Address) (bs : list (Address * Z)) : Z :=
  foldr (λ b acc, if decide (b.1 = a) then (b.2 + acc)%Z else acc) 0%Z bs.

Definition sum_Z (l : list Z) : Z := foldr Z.add 0%Z l.

(** The executor events of transactions that succeeded, with the gas
    each receipt reports. *)
Definition applied (txs : list Transaction) (rs : list Receipt)
    : list Event :=
  zip_with (λ tx r, EvApply tx (inl (GasUsed r))) txs rs.

(** The events a run added to those of the machine it started from. *)
Definition new_events (m m' : Mach) : list Event :=
  drop (length (events m)) (events m').

(** The database an outcome leaves behind. *)
Definition db_of (o : Outcome) : Database :=
  match o with
  | Returned _ db | Panicked db | OutOfFuel db => db
  end.

(** The writes a run added to the log of the store it started from. *)
Definition new_ops (db db' : Database) : list Op :=
  drop (length (oplog db)) (oplog db').

Definition is_failed (o : Op) : bool :=
  match o with OpFailed _ => true | _ => false end.

(** A key the loop migrates: it has the legacy prefix and does not end
    in the head hash. *)
Definition non_head_legacy (head key : list ascii) : bool :=
  HasPrefix key blockPrefix && negb (HasSuffix key head).

(** The keys the migrator reads its input from: the legacy records and
    the head pointer. *)
Definition reserved (key : list ascii) : Prop :=
  blockPrefix `prefix_of` key ∨ key = LastBlock.

(** What the loop keeps true of the store: same kind, same faults,
    and under the reserved keys exactly the records of the start
    minus those deleted so far. *)
Record Inv (db0 db : Database) (deleted : list (list ascii)) : Prop := {
  inv_kind : kind db = kind db0;
  inv_reads : bad_reads db = bad_reads db0;
  inv_writes : bad_writes db = bad_writes db0;
  inv_legacy : ∀ k, reserved k →
                    data db !! k
                    = if decide (k ∈ deleted) then None
                      else data db0 !! k
}.

Definition clean (ops : list Op) : Prop :=
  Forall (λ o, is_failed o = false) ops.

(** The keys of a list that the loop migrates. *)
Definition migrated (head : list ascii) (keys : list (list ascii))
    : list (list ascii) :=
  filter (λ k, Is_true (non_head_legacy head k)) keys.

Section Migrator.
Variable C : CoreDb.

(** The new keys are neither legacy keys nor the head pointer. *)
Definition scheme_ok : Prop :=
  ∀ h, ¬ reserved (tdKey C h)
       ∧ ¬ reserved (bodyKey C h)
       ∧ ¬ reserved (headerKey C h).

(** The block the loop loads for a key. *)
Definition old_block (db : Database) (key : list ascii)
    : option (OldBlock C) :=
  GetBlockByHashOld C db (BytesToHash C (TrimPrefix key blockPrefix)).

Definition head_ops (block : OldBlock C) : list Op :=
  [OpPut (tdKey C (Hash_ C block)) (encodeTd C block);
   OpPut (bodyKey C (Hash_ C block)) (encodeBody C block);
   OpPut (headerKey C (Hash_ C block)) (encodeHeader C block)].

Definition split_ops (db : Database) (key : list ascii) : list Op :=
  match old_block db key with
  | Some block => head_ops block ++ [OpDelete key]
  | None => []
  end.

(** The three records of a block, written over a store. *)
Definition with_records (block : OldBlock C)
    (d : gmap (list ascii) (list ascii)) : gmap (list ascii) (list ascii) :=
  <[headerKey C (Hash_ C block) := encodeHeader C block]>
    (<[bodyKey C (Hash_ C block) := encodeBody C block]>
       (<[tdKey C (Hash_ C block) := encodeTd C block]> d)).

(** The store accepts the three records of a block. *)
Definition writable (block : OldBlock C) (db : Database) : Prop :=
  (tdKey C (Hash_ C block) ∉ bad_writes db)
  ∧ (bodyKey C (Hash_ C block) ∉ bad_writes db)
  ∧ (headerKey C (Hash_ C block) ∉ bad_writes db).

End Migrator.

(** A run keeps track of a failed write: its log grows by writes that
    succeeded, and if it ends in a failed one the run returned the
    error of that write. *)
Definition tracked (db : Database) (o : Outcome) : Prop :=
  ∃ ops,
    oplog (db_of o) = oplog db ++ ops
    ∧ (clean ops
       ∨ ∃ ops' k,
           ops = ops' ++ [OpFailed k]
           ∧ clean ops'
           ∧ o = Returned (Some (ErrIO k)) (db_of o)).

Definition op_key (o : Op) : list ascii :=
  match o with
  | OpPut k _ | OpDelete k | OpFailed k => k
  end.

Section BloomIndex.
Variable B : BloomDb.

(** The key of a bloom bin is neither the key of a canonical hash
    nor the key of the version marker. *)
Definition keys_ok : Prop :=
  (∀ j k, mipmapKey B j ≠ canonicalKey B k)
  ∧ (∀ j, mipmapKey B j ≠ versionKey).

Definition missing (db : Database) (i : N) : Prop :=
  GetCanonicalHash B db i = zeroHash.

(** What the walk keeps true of the store: same faults, and only
    bloom bins written. *)
Record InvB (db0 db : Database) : Prop := {
  invb_reads : bad_reads db = bad_reads db0;
  invb_writes : bad_writes db = bad_writes db0;
  invb_data : ∀ k, (∀ j, k ≠ mipmapKey B j) →
                   data db !! k = data db0 !! k;
  invb_log : ∃ ops, oplog db = oplog db0 ++ ops
                    ∧ Forall (λ o, ∃ j, op_key o = mipmapKey B j) ops
}.

End BloomIndex.

End Views.

(** ** A concrete instance *)

Module Demo.
Import Big BigOps Core Ed Views.

Definition machine0 : Mach := mkMach (mkStateDB ∅ ∅ "" "" 0) [] [].
Definition header10 : Header := mkHeader 10 "minerCoinbase" 100000.
Definition uncle9 : Header := mkHeader 9 "uncleCoinbase" 100000.
Definition uncle1 : Header := mkHeader 1 "uncleCoinbase" 100000.

(** [common.BytesToHash]: the last 32 bytes, padded with zeros on the
    left. *)
Definition pad32 (b : list ascii) : list ascii :=
  let b' := drop (length b - 32) b in
  replicate (32 - length b') zero ++ b'.

(** A legacy record is the hash of the block followed by a payload;
    the three records of the block carry that payload. *)
Definition demoCore : CoreDb :=
  mkCoreDb (list ascii)
    (λ r, if decide (32 ≤ length r) then Some r else None)
    pad32
    (take 32)
    (λ h, bytes_of "td-" ++ h)
    (λ h, bytes_of "body-" ++ h)
    (λ h, bytes_of "header-" ++ h)
    (λ b, bytes_of "td:" ++ drop 32 b)
    (λ b, bytes_of "body:" ++ drop 32 b)
    (λ b, bytes_of "header:" ++ drop 32 b).

Definition hashH : list ascii := replicate 32 "H"%char.
Definition hashA : list ascii := replicate 32 "A"%char.
Definition recordH : list ascii := hashH ++ bytes_of "head".
Definition recordA : list ascii := hashA ++ bytes_of "a".

(** A store in the legacy layout: the head [H] and one more block [A],
    both as combined records. *)
Definition legacy_store (k : DbKind) (reads writes : gset (list ascii))
    : Database :=
  mkDb k
    (list_to_map [(LastBlock, hashH);
                  (blockPrefix ++ hashH, recordH);
                  (blockPrefix ++ hashA, recordA)])
    reads writes [].

(** The same for the bloom index: the version marker is the text
    [2], the head block is found through a record that holds as many
    bytes as its number, and numbers are written in unary in keys. *)
Definition unary (n : N) : list ascii := replicate (N.to_nat n) "i"%char.

Definition demoBloom : BloomDb :=
  mkBloomDb
    (λ r, if decide (r = bytes_of "2") then Some 2%N else None)
    (λ v, if decide (v = 2%N) then Some (bytes_of "2") else None)
    pad32
    (λ db h,
       match data db !! (bytes_of "number-" ++ h) with
       | Some r =>
           Some (mkBlock (mkHeader (Z.of_nat (length r)) "miner" 0)
                         "" [] [])
       | None => None
       end)
    (λ _ _, [])
    (λ n, bytes_of "num-" ++ unary n)
    (λ n, bytes_of "mipmap-" ++ unary n)
    (λ _ _ _, bytes_of "bloom").

(** A chain whose head [H] has number 2 and whose canonical hash for
    number 1 is missing; [marker] is the record of the version marker,
    if any. *)
Definition broken_chain (marker : option (list ascii))
    (writes : gset (list ascii)) : Database :=
  mkDb LDBDatabase
    (match marker with
     | Some v => <[versionKey := v]>
     | None => id
     end
       (list_to_map [(LastBlock, hashH);
                     (bytes_of "number-" ++ hashH, bytes_of "xx");
                     (bytes_of "num-" ++ unary 0, hashA);
                     (bytes_of "num-" ++ unary 2, hashH)]))
    ∅ writes [].

(** The same chain with the canonical hash of number 1 in place. *)
Definition whole_chain (writes : gset (list ascii)) : Database :=
  mkDb LDBDatabase
    (<[bytes_of "num-" ++ unary 1 := hashA]>
       (data (broken_chain None writes)))
    ∅ writes [].

(** An executor that charges 21000 gas and fails on the data [bad]. *)
Definition demoExec (s : StateDB) (gp : Z) (h : Header) (tx : Transaction)
    : StateDB * Z * (Z + Error) :=
  if decide (txData tx = "bad") then (s, gp, inr "out of gas")
  else (s, (gp - 21000)%Z, inl 21000%Z).

Definition demoProcess : Block → M Core.ProcessResult :=
  Core.Process 5 demoExec (λ _, "root") (λ a _, a) (λ _, "bloom").

Definition tx1 : Transaction := mkTransaction "h1" 0 "alice" (Some "bob") "".
Definition tx2 : Transaction := mkTransaction "h2" 1 "alice" None "".
Definition tx_bad : Transaction :=
  mkTransaction "h3" 2 "alice" (Some "bob") "bad".

Definition block_ok : Block :=
  mkBlock header10 "blockhash" [tx1; tx2] [].
Definition block_bad : Block :=
  mkBlock header10 "blockhash" [tx1; tx_bad; tx2] [].

Definition legacy_store_after : Database :=
  Eval vm_compute in
    db_of (upgradeChainDatabase demoCore (legacy_store LDBDatabase ∅ ∅)).

Definition whole_chain_walked : Database :=
  Eval vm_compute in db_of (bloom_body demoBloom 4 (whole_chain {[versionKey]})).

End Demo.

(** ** More notions for block processing *)

Module ProcessViews.
Import Big BigOps Core Views.

(** The gas of the executor calls that succeeded, in a list of events. *)
Definition gas_spent (evs : list Event) : Z :=
  foldr (λ e acc, match e with
                  | EvApply _ (inl gas) => (gas + acc)%Z
                  | _ => acc
                  end) 0%Z evs.

(** The events that are calls of the executor. *)
Definition is_apply (e : Event) : bool :=
  match e with EvApply _ _ => true | EvCredit _ _ => false end.

(** The beneficiaries of the rewards of a block, in the order of the
    payment: the coinbase of each uncle, then the coinbase of the
    block. *)
Definition beneficiaries (header : Header) (uncles : list Header)
    : list Address :=
  (Coinbase <$> uncles) ++ [Coinbase header].

(** The receipts of a run of the loop, with the running total [c] of the
    gas before it: each receipt reports the total up to and including
    its own transaction. *)
Definition running_totals (c : Z) (rs : list Receipt) : Prop :=
  ∀ j r, rs !! j = Some r →
         CumulativeGasUsed r = (c + sum_Z (GasUsed <$> take (S j) rs))%Z.

(** The amounts [Process] pays for a block with [k] uncles, in the order
    of the beneficiaries. *)
Definition paid_amounts (BlockReward : Z) (k : nat) : list Z :=
  replicate k (BlockReward / 32)%Z
    ++ [(BlockReward + Z.of_nat k * (BlockReward / 32))%Z].

End ProcessViews.

(** ** More notions for the storage migrator *)

Module MigratorViews.
Import Ed Views.

Definition is_delete (o : Op) : bool :=
  match o with OpDelete _ => true | _ => false end.

Section Migrator.
Variable C : CoreDb.

(** How far a run of the migrator got, from the store [db0] of its
    start: the keys in [done] were split in full, one after the other,
    then came writes that delete nothing; the reserved keys are as at
    the start, minus the keys split. *)
Definition Shape (head : list ascii) (db0 db : Database)
    (deleted : list (list ascii)) (o : Outcome) : Prop :=
  ∃ done tail,
    oplog (db_of o) = oplog db ++ flat_map (split_ops C db0) done ++ tail
    ∧ Forall (λ op, is_delete op = false) tail
    ∧ Forall (λ k, is_Some (old_block C db0 k)) done
    ∧ Forall (λ k, Is_true (non_head_legacy head k)) done
    ∧ Inv db0 (db_of o) (deleted ++ done).

(** A key the migrator has no business with: neither a legacy key nor
    the key of a new record. *)
Definition foreign (k : list ascii) : Prop :=
  ¬ blockPrefix `prefix_of` k
  ∧ ∀ h, k ≠ tdKey C h ∧ k ≠ bodyKey C h ∧ k ≠ headerKey C h.

(** The records under foreign keys are those of [db]. *)
Definition framed (db : Database) (o : Outcome) : Prop :=
  ∀ k, foreign k → data (db_of o) !! k = data db !! k.

End Migrator.
End MigratorViews.

(** ** ed: the configuration of a node *)

Module EdConfig.
Import Ed.

(** [strings.Split(s, sep)] for a separator of one byte: the fields
    between the separators, one more than there are separators; [cur]
    is the field read so far. *)
Fixpoint split_from (cur s : string) (sep : ascii) : list string :=
  match s with
  | EmptyString => [cur]
  | String c s' =>
      if Ascii.eqb c sep then cur :: split_from EmptyString s' sep
      else split_from (cur +:+ String c EmptyString) s' sep
  end.

Definition Split (s : string) (sep : ascii) : list string :=
  split_from EmptyString s sep.

(** The fields of [Config] that the functions below read. *)
Record Config := mkConfig {
  TestNet : bool;
  BootNodes : string;
  BlockChainVersion : Z;
  SkipBcVersionCheck : bool
}.

Section Nodes.
Variable Node : Type.

(** [discover.ParseNode]: the node of a URL, or an error. *)
Variable ParseNode : string → option Node.

(** The three nodes that [discover.MustParseNode] gives for the URLs of
    the main network. *)
Variable defaultBootNodes : list Node.

(** Every entry of the list of the test network is commented out. *)
Definition defaultTestNetBootNodes : list Node := [].

(** The loop over the URLs, shared by [parseBootNodes] and
    [parseNodes]: empty and unparseable URLs are skipped. *)
Fixpoint parse_urls (urls : list string) (ns : list Node) : list Node :=
  match urls with
  | [] => ns
  | url :: rest =>
      if decide (url = EmptyString) then parse_urls rest ns
      else match ParseNode url with
           | None => parse_urls rest ns
           | Some n => parse_urls rest (ns ++ [n])
           end
  end.

Definition parseBootNodes (cfg : Config) : list Node :=
  if decide (BootNodes cfg = EmptyString) then
    if TestNet cfg then defaultTestNetBootNodes else defaultBootNodes
  else parse_urls (Split (BootNodes cfg) " "%char) [].

End Nodes.

(** *** The version of the chain database *)

Definition bcVersionKey : list ascii := bytes_of "BlockchainVersion".

(** [int(x)] for a [uint64] [x]: two's complement on 64 bits. *)
Definition int_of_uint64 (x : N) : Z :=
  if (x <? 2 ^ 63)%N then Z.of_N x else (Z.of_N x - 2 ^ 64)%Z.

Inductive StartError :=
| VersionMismatch (stored configured : Z).

Section Version.

(** [common.NewValue(d).Uint()] for bytes [d] and
    [common.NewValue(v).Bytes()] for an [int] [v]; their code is in
    package [common]. *)
Variable Uint : list ascii → N.
Variable IntBytes : Z → list ascii.

(** The errors of [Get] and of [Put] are dropped. *)
Definition saveBlockchainVersion (db : Database) (bcVersion : Z)
    : Database :=
  let d := (Get db bcVersionKey).1 in
  let blockchainVersion := Uint d in
  if (blockchainVersion =? 0)%N
  then (Put bcVersionKey (IntBytes bcVersion) db).2
  else db.

(** The version check of [New]: the block guarded by
    [!config.SkipBcVersionCheck]. *)
Definition New_version_check (config : Config) (chainDb : Database)
    : option StartError * Database :=
  if SkipBcVersionCheck config then (None, chainDb)
  else
    let b := (Get chainDb bcVersionKey).1 in
    let bcVersion := int_of_uint64 (Uint b) in
    if negb (bcVersion =? BlockChainVersion config)%Z
       && negb (bcVersion =? 0)%Z
    then (Some (VersionMismatch bcVersion (BlockChainVersion config)),
          chainDb)
    else (None, saveBlockchainVersion chainDb (BlockChainVersion config)).

End Version.

End EdConfig.

(** ** ed: pregenerating the DAG *)

Module AutoDag.

Definition epochLength : N := 30000.
Definition ethashRevision : N := 23.
Definition autoDAGepochHeight : N := epochLength / 2.

(** [%d] of [fmt.Sprintf]. *)
Definition decimal (n : N) : string :=
  NilZero.string_of_uint (N.to_uint n).

(** [%x] of [fmt.Sprintf] on a byte slice: two lower-case digits per
    byte. *)
Definition hex_digit (n : N) : ascii :=
  nth (N.to_nat n) (list_ascii_of_string "0123456789abcdef") "0"%char.

Fixpoint hex (bs : list ascii) : string :=
  match bs with
  | [] => EmptyString
  | b :: bs' =>
      String (hex_digit (N_of_ascii b / 16))
        (String (hex_digit (N_of_ascii b mod 16)) (hex bs'))
  end.

(** What the timer loop sees when it wakes up: the timer fired, with the
    number of the current block and what the environment answers if
    asked (whether [os.Stat] reports the DAG as missing, whether
    [ethash.MakeDAG] succeeds), or the quit channel was closed. *)
Inductive DagEvent :=
| Timer (currentBlock : N) (dagMissing makeOk : bool)
| Quit.

(** What the loop asks of the environment. *)
Inductive DagAction :=
| Remove (path : string)
| Stat (name : string)
| MakeDAG (block : N).

(** How the goroutine stands after the events: still waiting, with its
    [nextEpoch]; returned after quit; returned after a failed
    [MakeDAG]; or crashed in [dagFiles]. *)
Inductive DagEnd :=
| Waiting (nextEpoch : N)
| Quitted
| MakeFailed
| Crashed.

Section Dag.

(** [ethash.GetSeedHash], whose error is dropped, [ethash.DefaultDir]
    and [filepath.Join]. *)
Variable GetSeedHash : N → list ascii.
Variable DefaultDir : string.
Variable Join : string → string → string.

(** [seedHash[:8]] panics on a slice shorter than 8 bytes: [None]. *)
Definition dagFiles (epoch : N) : option (string * string) :=
  let seedHash := GetSeedHash ((epoch * epochLength) mod 2 ^ 64)%N in
  if decide (8 ≤ length seedHash) then
    let dag :=
      "full-R" +:+ decimal ethashRevision +:+ "-" +:+ hex (take 8 seedHash)
    in
    Some (dag, "full-R" +:+ dag)
  else None.

(** The loop of the goroutine that [StartAutoDAG] spawns, over the
    events it receives; [acts] is what it has asked so far. *)
Fixpoint autodag_loop (events : list DagEvent) (nextEpoch : N)
    (acts : list DagAction) : list DagAction * DagEnd :=
  match events with
  | [] => (acts, Waiting nextEpoch)
  | Quit :: _ => (acts, Quitted)
  | Timer currentBlock dagMissing makeOk :: rest =>
      let thisEpoch := (currentBlock / epochLength)%N in
      if (nextEpoch <=? thisEpoch)%N
         && (autoDAGepochHeight <? currentBlock mod epochLength)%N
      then
        let removed :=
          if (0 <? thisEpoch)%N
          then match dagFiles (thisEpoch - 1) with
               | Some (previousDag, previousDagFull) =>
                   Some [Remove (Join DefaultDir previousDag);
                         Remove (Join DefaultDir previousDagFull)]
               | None => None
               end
          else Some []
        in
        match removed with
        | None => (acts, Crashed)
        | Some removes =>
            let nextEpoch' := (thisEpoch + 1)%N in
            match dagFiles nextEpoch' with
            | None => (acts ++ removes, Crashed)
            | Some (dag, _) =>
                if dagMissing
                then
                  let block := ((nextEpoch' * epochLength) mod 2 ^ 64)%N in
                  if makeOk
                  then autodag_loop rest nextEpoch'
                         (acts ++ removes ++ [Stat dag; MakeDAG block])
                  else (acts ++ removes ++ [Stat dag; MakeDAG block],
                        MakeFailed)
                else autodag_loop rest nextEpoch'
                       (acts ++ removes ++ [Stat dag])
            end
        end
      else autodag_loop rest nextEpoch acts
  end.

End Dag.

End AutoDag.

(** ** More notions for the configuration and the DAG *)

Module ConfigViews.
Import EdConfig AutoDag.

(** The value of a hexadecimal digit, and the bytes a string of such
    digits stands for. *)
Definition digit_value (c : ascii) : N :=
  let n := N_of_ascii c in
  if (n <? 58)%N then (n - 48)%N else (n - 87)%N.

Fixpoint unhex (s : string) : list ascii :=
  match s with
  | String h (String l s') =>
      ascii_of_N (16 * digit_value h + digit_value l) :: unhex s'
  | _ => []
  end.

Definition is_make (a : DagAction) : bool :=
  match a with MakeDAG _ => true | _ => false end.

Definition is_remove (a : DagAction) : bool :=
  match a with Remove _ => true | _ => false end.

(** The timer events of a list all fall into the epoch [e]. *)
Definition in_epoch (e : N) (events : list DagEvent) : Prop :=
  Forall (λ ev, match ev with
                | Timer currentBlock _ _ =>
                    (currentBlock / epochLength)%N = e
                | Quit => True
                end) events.

(** A configuration with another list of boot nodes. *)
Definition with_BootNodes (cfg : Config) (s : string) : Config :=
  mkConfig (TestNet cfg) s (BlockChainVersion cfg) (SkipBcVersionCheck cfg).

(** A parser that knows the URLs [a] and [b] only. *)
Definition demoParseNode (url : string) : option nat :=
  if decide (url = "a"%string) then Some 1
  else if decide (url = "b"%string) then Some 2
  else None.

(** A version is stored as one byte. *)
Definition demoUint (d : list ascii) : N :=
  match d with
  | [c] => N_of_ascii c
  | _ => 0%N
  end.

Definition demoIntBytes (v : Z) : list ascii := [ascii_of_N (Z.to_N v)].

(** The seed of a block is its epoch, repeated 32 times as a byte. *)
Definition demoSeedHash (block : N) : list ascii :=
  replicate 32 (ascii_of_N ((block / epochLength) mod 256)).

End ConfigViews.

(** ** More notions for the DAG loop *)

Module DagViews.
Import AutoDag ConfigViews.

(** How often a list of actions generates a DAG, and how many files it
    removes. *)
Definition makes (acts : list DagAction) : nat :=
  length (List.filter is_make acts).

Definition removals (acts : list DagAction) : nat :=
  length (List.filter is_remove acts).

Section Dag.
Variable GetSeedHash : N → list ascii.
Variable DefaultDir : string.
Variable Join : string → string → string.

(** What a timer event at block [b] can make the loop ask: past the
    half of the epoch of [b] only; the DAG of the next epoch, looked up
    under its first name and generated from the first block of that
    epoch; the two files of the epoch before, if there is one. *)
Definition caused_by (b : N) (a : DagAction) : Prop :=
  (autoDAGepochHeight < b mod epochLength)%N
  ∧ match a with
    | MakeDAG block =>
        block = (((b / epochLength + 1) * epochLength) mod 2 ^ 64)%N
    | Stat name =>
        ∃ full, dagFiles GetSeedHash (b / epochLength + 1) = Some (name, full)
    | Remove path =>
        (0 < b / epochLength)%N
        ∧ ∃ dag full,
            dagFiles GetSeedHash (b / epochLength - 1) = Some (dag, full)
            ∧ (path = Join DefaultDir dag ∨ path = Join DefaultDir full)
    end.

End Dag.

Definition demoJoin (dir file : string) : string := dir +:+ "/" +:+ file.

End DagViews.

(** ** More notions for the rewards *)

Module IssueViews.

(** The amount credited in a list of events, all addresses together. *)
Definition issued (evs : list Event) : Z :=
  foldr (λ e acc, match e with
                  | EvCredit _ v => (v + acc)%Z
                  | EvApply _ _ => acc
                  end) 0%Z evs.

End IssueViews.

(** ** Running the primitives *)

Module Run.
Import Big BigOps.

Lemma bind_run {A B} (c : M A) (k : A → M B) (m : Mach) :
  (c ≫= k) m = match c m with
               | Some (a, m') => k a m'
               | None => None
               end.
Proof. reflexivity. Qed.

Lemma get_mach_run {B} (k : Mach → M B) (m : Mach) :
  (get_mach ≫= k) m = k m m.
Proof. reflexivity. Qed.

Lemma mret_run {A} (a : A) (m : Mach) :
  (mret a : M A) m = Some (a, m).
Proof. reflexivity. Qed.

Lemma load_imm (v : Z) (m : Mach) : load (Imm v) m = Some (v, m).
Proof. reflexivity. Qed.

Lemma load_ptr (l : loc) (v : Z) (m : Mach) :
  heap m !! l = Some v → load (Ptr l) m = Some (v, m).
Proof.
  intros Hl. unfold load. rewrite bind_run. simpl. now rewrite Hl.
Qed.

Lemma store_run (l : loc) (v : Z) (m : Mach) :
  l < length (heap m) →
  store l v m = Some (l, mkMach (statedb m) (<[l:=v]> (heap m)) (events m)).
Proof.
  intros Hl. unfold store. rewrite bind_run. simpl.
  destruct (decide (l < length (heap m))); [reflexivity | lia].
Qed.

Lemma new_Int_run (m : Mach) :
  new_Int m =
  Some (length (heap m), mkMach (statedb m) (heap m ++ [0%Z]) (events m)).
Proof. reflexivity. Qed.

(** A binary operation whose operands can be read. *)
Lemma binop_run (f : Z → Z → Z) (z : loc) (x y : ref) (a b : Z) (m : Mach) :
  load x m = Some (a, m) → load y m = Some (b, m) →
  z < length (heap m) →
  (a ← load x; b ← load y; store z (f a b)) m =
  Some (z, mkMach (statedb m) (<[z:=f a b]> (heap m)) (events m)).
Proof.
  intros Hx Hy Hz. rewrite bind_run, Hx, bind_run, Hy.
  now apply store_run.
Qed.

Lemma Add_run z x y a b m :
  load x m = Some (a, m) → load y m = Some (b, m) →
  z < length (heap m) →
  Add z x y m =
  Some (z, mkMach (statedb m) (<[z:=(a + b)%Z]> (heap m)) (events m)).
Proof. apply (binop_run Z.add). Qed.

Lemma Sub_run z x y a b m :
  load x m = Some (a, m) → load y m = Some (b, m) →
  z < length (heap m) →
  Sub z x y m =
  Some (z, mkMach (statedb m) (<[z:=(a - b)%Z]> (heap m)) (events m)).
Proof. apply (binop_run Z.sub). Qed.

Lemma Mul_run z x y a b m :
  load x m = Some (a, m) → load y m = Some (b, m) →
  z < length (heap m) →
  Mul z x y m =
  Some (z, mkMach (statedb m) (<[z:=(a * b)%Z]> (heap m)) (events m)).
Proof. apply (binop_run Z.mul). Qed.

Lemma Div_run z x y a b m :
  load x m = Some (a, m) → load y m = Some (b, m) →
  b ≠ 0%Z → z < length (heap m) →
  Div z x y m =
  Some (z, mkMach (statedb m) (<[z:=euclid_div a b]> (heap m)) (events m)).
Proof.
  intros Hx Hy Hb Hz. unfold Div. rewrite bind_run, Hx, bind_run, Hy.
  destruct (decide (b = 0%Z)); [contradiction | now apply store_run].
Qed.

Lemma Set_run z x a m :
  load x m = Some (a, m) → z < length (heap m) →
  Set_ z x m = Some (z, mkMach (statedb m) (<[z:=a]> (heap m)) (events m)).
Proof.
  intros Hx Hz. unfold Set_. rewrite bind_run, Hx. now apply store_run.
Qed.

(** With a positive divisor Euclidean division is the floor. *)
Lemma euclid_div_pos (x y : Z) : (0 < y)%Z → euclid_div x y = (x / y)%Z.
Proof.
  intros Hy. unfold euclid_div.
  rewrite Z.sgn_pos, Z.abs_eq by lia. lia.
Qed.

Lemma euclid_div_spec (x y : Z) :
  y ≠ 0%Z →
  (0 ≤ x - y * euclid_div x y < Z.abs y)%Z.
Proof.
  intros Hy. unfold euclid_div.
  assert (Hpos : (0 < Z.abs y)%Z) by lia.
  pose proof (Z.mod_pos_bound x (Z.abs y) Hpos) as Hb.
  pose proof (Z.div_mod x (Z.abs y) ltac:(lia)) as Hd.
  assert (He : (y * (Z.sgn y * (x / Z.abs y)) = Z.abs y * (x / Z.abs y))%Z).
  { rewrite Z.mul_assoc. f_equal. destruct y; simpl; lia. }
  rewrite He. lia.
Qed.

End Run.

(** ** Mining rewards *)

Module RewardFacts.
Import Big BigOps Run Core Views.

Section Rewards.
Variable BlockReward : Z.

Local Abbreviation uncleReward := (uncleReward BlockReward).
Local Abbreviation minerBonus := (minerBonus BlockReward).
Local Abbreviation shared_cell := (shared_cell BlockReward).
Local Abbreviation AccumulateRewards_until :=
  (AccumulateRewards_until BlockReward).

Lemma uncle_reward_run header uncle r rewards m :
  r < length (heap m) →
  uncle_reward BlockReward header uncle r rewards m =
  Some (rewards ++ [r],
        mkMach (statedb m) (<[r:=uncleReward header uncle]> (heap m))
               (events m)).
Proof.
  intros Hr. unfold uncle_reward, big8.
  rewrite bind_run.
  rewrite (Add_run r _ _ (Number uncle) 8 m) by (auto using load_imm).
  rewrite bind_run.
  erewrite Sub_run; cycle 1.
  { apply load_ptr. simpl. now apply list_lookup_insert_eq. }
  { apply load_imm. }
  { simpl. now rewrite length_insert. }
  simpl heap. rewrite list_insert_insert_eq. rewrite bind_run.
  erewrite Mul_run; cycle 1.
  { apply load_ptr. simpl. now apply list_lookup_insert_eq. }
  { apply load_imm. }
  { simpl. now rewrite length_insert. }
  simpl heap. rewrite list_insert_insert_eq. rewrite bind_run.
  erewrite Div_run; cycle 1.
  { apply load_ptr. simpl. now apply list_lookup_insert_eq. }
  { apply load_imm. }
  { lia. }
  { simpl. now rewrite length_insert. }
  simpl. rewrite list_insert_insert_eq.
  unfold uncleReward. now rewrite euclid_div_pos by lia.
Qed.

Lemma miner_bonus_run r mr v m :
  r ≠ mr → r < length (heap m) → heap m !! mr = Some v →
  miner_bonus BlockReward r mr m =
  Some (tt, mkMach (statedb m)
              (<[mr:=(v + minerBonus)%Z]> (<[r:=minerBonus]> (heap m)))
              (events m)).
Proof.
  intros Hne Hr Hmr. unfold miner_bonus, big32.
  rewrite bind_run.
  rewrite (Div_run r _ _ BlockReward 32 m)
    by (auto using load_imm; lia).
  rewrite bind_run.
  erewrite Add_run; cycle 1.
  { apply load_ptr. simpl. rewrite list_lookup_insert_ne by done.
    exact Hmr. }
  { apply load_ptr. simpl. now apply list_lookup_insert_eq. }
  { simpl. rewrite length_insert. now apply lookup_lt_Some in Hmr. }
  simpl. now rewrite euclid_div_pos by lia.
Qed.

Lemma accumulate_loop_run header r mr uncles :
  ∀ rewards m r0 v,
    r ≠ mr → heap m !! r = Some r0 → heap m !! mr = Some v →
    accumulate_loop BlockReward header r mr uncles rewards m =
    Some (rewards ++ replicate (length uncles) r,
          mkMach (statedb m)
            (<[mr:=(v + Z.of_nat (length uncles) * minerBonus)%Z]>
               (<[r:=shared_cell uncles r0]> (heap m)))
            (events m)).
Proof.
  induction uncles as [|u rest IH]; intros rewards m r0 v Hne Hr Hmr.
  - simpl. unfold mret, M_ret. rewrite app_nil_r.
    rewrite Z.add_0_r.
    rewrite (list_insert_id _ _ _ Hr), (list_insert_id _ _ _ Hmr).
    now destruct m.
  - assert (Hlr : r < length (heap m)) by now apply lookup_lt_Some in Hr.
    assert (Hlm : mr < length (heap m)) by now apply lookup_lt_Some in Hmr.
    cbn [accumulate_loop]. rewrite bind_run.
    rewrite uncle_reward_run by done. rewrite bind_run.
    erewrite miner_bonus_run; cycle 1.
    { exact Hne. }
    { simpl. now rewrite length_insert. }
    { simpl. rewrite list_lookup_insert_ne by done. exact Hmr. }
    simpl heap. simpl statedb. simpl events.
    rewrite list_insert_insert_eq.
    erewrite IH; cycle 1.
    { exact Hne. }
    { simpl. rewrite list_lookup_insert_ne by done.
      now apply list_lookup_insert_eq. }
    { simpl. apply list_lookup_insert_eq.
      now rewrite length_insert. }
    simpl. f_equal. f_equal.
    + rewrite <- app_assoc. reflexivity.
    + f_equal.
      assert (Hs : shared_cell rest minerBonus = minerBonus)
        by now destruct rest.
      rewrite Hs.
      rewrite (list_insert_insert_ne _ r mr) by done.
      rewrite list_insert_insert_eq.
      rewrite list_insert_insert_eq.
      f_equal. lia.
Qed.

Lemma two_cells (h : list Z) (init a b : Z) :
  <[length h:=a]>
    (<[S (length h):=b]> (<[length h:=init]> (h ++ [0%Z]) ++ [0%Z]))
  = h ++ [a; b].
Proof.
  induction h as [|x h IH]; [reflexivity|].
  simpl. f_equal. exact IH.
Qed.

Lemma second_cell (h : list Z) (a b x : Z) :
  <[S (length h):=x]> (h ++ [a; b]) = h ++ [a; x].
Proof.
  induction h as [|y h IH]; [reflexivity|].
  simpl. f_equal. exact IH.
Qed.

(** What [AccumulateRewards] returns and what it leaves behind: [k]
    copies of one pointer followed by the miner's pointer, two new
    cells at the end of the heap, and nothing else touched. *)
Lemma AccumulateRewards_run header uncles m :
  AccumulateRewards BlockReward header uncles m =
  Some (replicate (length uncles) (S (length (heap m)))
          ++ [length (heap m)],
        mkMach (statedb m)
          (heap m ++
             [(BlockReward + Z.of_nat (length uncles) * minerBonus)%Z;
              shared_cell uncles 0])
          (events m)).
Proof.
  unfold AccumulateRewards.
  rewrite bind_run, new_Int_run, bind_run.
  erewrite Set_run; cycle 1.
  { apply load_imm. }
  { simpl. rewrite length_app. simpl. lia. }
  rewrite bind_run, new_Int_run, bind_run. simpl heap.
  rewrite length_insert, length_app. simpl length.
  replace (length (heap m) + 1) with (S (length (heap m))) by lia.
  erewrite (accumulate_loop_run header _ _ uncles [] _ 0%Z BlockReward);
    cycle 1.
  { lia. }
  { simpl. rewrite lookup_app_r; rewrite length_insert, length_app;
      simpl; [|lia].
    replace (S (length (heap m)) - (length (heap m) + 1)) with 0 by lia.
    reflexivity. }
  { simpl. rewrite lookup_app_l
      by (rewrite length_insert, length_app; simpl; lia).
    apply list_lookup_insert_eq. rewrite length_app. simpl. lia. }
  simpl. unfold mret, M_ret. f_equal. f_equal. f_equal.
  apply two_cells.
Qed.

Lemma AccumulateRewards_until_run header uncles i uncle m :
  uncles !! i = Some uncle →
  AccumulateRewards_until header uncles i m =
  Some (replicate (S i) (S (length (heap m))),
        mkMach (statedb m)
          (heap m ++
             [(BlockReward + Z.of_nat i * minerBonus)%Z;
              uncleReward header uncle])
          (events m)).
Proof.
  intros Hi. unfold AccumulateRewards_until.
  rewrite bind_run, new_Int_run, bind_run.
  erewrite Set_run; cycle 1.
  { apply load_imm. }
  { simpl. rewrite length_app. simpl. lia. }
  rewrite bind_run, new_Int_run, bind_run. simpl heap.
  rewrite length_insert, length_app. simpl length.
  replace (length (heap m) + 1) with (S (length (heap m))) by lia.
  erewrite (accumulate_loop_run header _ _ (take i uncles) []
                                _ 0%Z BlockReward); cycle 1.
  { lia. }
  { simpl. rewrite lookup_app_r; rewrite length_insert, length_app;
      simpl; [|lia].
    replace (S (length (heap m)) - (length (heap m) + 1)) with 0 by lia.
    reflexivity. }
  { simpl. rewrite lookup_app_l
      by (rewrite length_insert, length_app; simpl; lia).
    apply list_lookup_insert_eq. rewrite length_app. simpl. lia. }
  rewrite Hi.
  assert (Hlen : length (take i uncles) = i).
  { apply lookup_lt_Some in Hi. rewrite length_take. lia. }
  rewrite Hlen. cbn [heap statedb events].
  rewrite two_cells, length_insert, length_app. simpl length.
  replace (length (heap m) + 1) with (S (length (heap m))) by lia.
  rewrite uncle_reward_run
    by (simpl; rewrite length_app; simpl; lia).
  simpl. f_equal. f_equal.
  - clear. induction i as [|i IH]; [reflexivity|].
    simpl. f_equal. exact IH.
  - f_equal. apply second_cell.
Qed.

End Rewards.

(** *** Paying the rewards *)

Lemma AddBalance_run a p v m :
  heap m !! p = Some v →
  AddBalance a (Ptr p) m =
  Some (tt, mkMach (credit a v (statedb m)) (heap m)
                   (events m ++ [EvCredit a v])).
Proof.
  intros Hp. unfold AddBalance. rewrite bind_run.
  now rewrite (load_ptr _ _ _ Hp).
Qed.

Lemma GetBalance_credit a b v s :
  GetBalance (credit b v s) a =
  if decide (b = a) then (GetBalance s a + v)%Z else GetBalance s a.
Proof.
  unfold GetBalance at 1. unfold credit. simpl.
  rewrite lookup_insert. destruct (decide (b = a)) as [->|]; reflexivity.
Qed.

Lemma GetBalance_credits a bs :
  ∀ s, GetBalance (credits bs s) a
       = (GetBalance s a + credited_to a bs)%Z.
Proof.
  induction bs as [|[b v] bs IH]; intros s; simpl.
  - lia.
  - unfold credits in *. simpl. rewrite IH, GetBalance_credit.
    destruct (decide (b = a)); lia.
Qed.

Lemma balances_credits_other a bs :
  a ∉ bs.*1 →
  ∀ s, balances (credits bs s) !! a = balances s !! a.
Proof.
  induction bs as [|[b v] bs IH]; intros Hnot s; [reflexivity|].
  simpl in Hnot. apply not_elem_of_cons in Hnot as [Hne Hnot].
  unfold credits in *. simpl. rewrite IH by done.
  simpl. now rewrite lookup_insert_ne.
Qed.

Lemma pay_loop_run uncles rewards :
  ∀ i m vs,
    length vs = length uncles →
    (∀ j, j < length uncles →
          ∃ p, rewards !! (i + j) = Some p ∧ heap m !! p = vs !! j) →
    pay_loop uncles rewards i m =
    Some (i + length uncles,
          mkMach (credits (zip (Coinbase <$> uncles) vs) (statedb m))
                 (heap m)
                 (events m ++ zip_with EvCredit (Coinbase <$> uncles) vs)).
Proof.
  induction uncles as [|u rest IH]; intros i m vs Hlen Hps.
  - destruct vs; [|discriminate]. simpl. unfold mret, M_ret.
    rewrite app_nil_r, Nat.add_0_r. now destruct m.
  - destruct vs as [|v vs]; [discriminate|].
    destruct (Hps 0 ltac:(simpl; lia)) as (p & Hp & Hv).
    rewrite Nat.add_0_r in Hp. simpl in Hv.
    cbn [pay_loop]. rewrite Hp, bind_run.
    rewrite (AddBalance_run _ _ _ _ Hv).
    rewrite (IH (S i) _ vs).
    + simpl. rewrite <- app_assoc. simpl.
      do 3 f_equal. lia.
    + simpl in Hlen. lia.
    + intros j Hj. destruct (Hps (S j) ltac:(simpl; lia)) as (q & Hq & Hw).
      exists q. split; [|exact Hw].
      now replace (S i + j) with (i + S j) by lia.
Qed.

Lemma PayRewards_run header uncles rewards m vs v :
  length vs = length uncles →
  values (heap m) rewards = Some <$> (vs ++ [v]) →
  PayRewards header uncles rewards m =
  Some (tt,
        mkMach
          (credits (zip ((Coinbase <$> uncles) ++ [Coinbase header])
                        (vs ++ [v])) (statedb m))
          (heap m)
          (events m ++
             zip_with EvCredit ((Coinbase <$> uncles) ++ [Coinbase header])
                      (vs ++ [v]))).
Proof.
  intros Hlen Hvals. unfold values in Hvals.
  assert (Hat : ∀ j w, (vs ++ [v]) !! j = Some w →
                       ∃ p, rewards !! j = Some p ∧ heap m !! p = Some w).
  { intros j w Hw.
    assert (Hj : ((λ p, heap m !! p) <$> rewards) !! j = Some (Some w))
      by now rewrite Hvals, list_lookup_fmap, Hw.
    rewrite list_lookup_fmap in Hj.
    destruct (rewards !! j) as [p|]; [|discriminate].
    exists p. split; [reflexivity|]. simpl in Hj. congruence. }
  unfold PayRewards. rewrite bind_run.
  rewrite (pay_loop_run uncles rewards 0 m vs Hlen); cycle 1.
  { intros j Hj.
    destruct (lookup_lt_is_Some_2 vs j ltac:(lia)) as [w Hw].
    destruct (Hat j w) as (p & Hp & Hh).
    { now rewrite lookup_app_l by lia. }
    exists p. now rewrite Hw. }
  simpl.
  destruct (Hat (length uncles) v) as (p & Hp & Hh).
  { rewrite <- Hlen. apply list_lookup_middle. reflexivity. }
  rewrite Hp.
  rewrite AddBalance_run with (v := v) by exact Hh.
  simpl. f_equal. f_equal.
  assert (Hl : length (Coinbase <$> uncles) = length vs)
    by now rewrite length_fmap.
  f_equal.
  - rewrite zip_with_app by exact Hl.
    unfold credits. rewrite foldl_app. reflexivity.
  - rewrite zip_with_app by exact Hl. now rewrite <- app_assoc.
Qed.

Lemma values_shared (h : list Z) (a b : Z) (k : nat) :
  values (h ++ [a; b]) (replicate k (S (length h)) ++ [length h])
  = Some <$> (replicate k b ++ [a]).
Proof.
  unfold values. rewrite !fmap_app, !fmap_replicate. simpl.
  f_equal.
  - f_equal. rewrite lookup_app_r by lia.
    now replace (S (length h) - length h) with 1 by lia.
  - f_equal. rewrite lookup_app_r by lia.
    now rewrite Nat.sub_diag.
Qed.

(** The values of the list [AccumulateRewards] returns, for any reward
    and any uncles: every uncle entry is the one shared cell. *)
Lemma AccumulateRewards_values BlockReward header uncles m :
  ∃ rewards m',
    AccumulateRewards BlockReward header uncles m = Some (rewards, m')
    ∧ values (heap m') rewards
      = Some <$> (replicate (length uncles)
                            (shared_cell BlockReward uncles 0)
                  ++ [(BlockReward
                       + Z.of_nat (length uncles) * minerBonus BlockReward)%Z]).
Proof.
  do 2 eexists. split; [apply AccumulateRewards_run|].
  simpl heap. apply values_shared.
Qed.

End RewardFacts.

(** ** Properties of the reward stage *)

Import Big BigOps Run Core Views Demo RewardFacts.

(** C1, evaluated: for header number 10, one uncle at number 9 and
    [BlockReward = 5] the returned list holds [0, 5] and not [4, 5]: the
    uncle's entry is the shared cell [r], which the loop overwrites with
    [BlockReward / 32] after the append.  [PayRewards] then credits the
    uncle's coinbase by 0 and the block's coinbase by 5. *)
Lemma rewards_header10_uncle9 :
  ∃ rewards m1 m2,
    AccumulateRewards 5 header10 [uncle9] machine0 = Some (rewards, m1)
    ∧ values (heap m1) rewards = [Some 0%Z; Some 5%Z]
    ∧ PayRewards header10 [uncle9] rewards m1 = Some (tt, m2)
    ∧ events m2 = [EvCredit "uncleCoinbase" 0; EvCredit "minerCoinbase" 5]
    ∧ GetBalance (statedb m2) "uncleCoinbase" = 0%Z
    ∧ GetBalance (statedb m2) "minerCoinbase" = 5%Z
    ∧ uncleReward 5 header10 uncle9 = 4%Z.
Proof.
  do 3 eexists. split; [reflexivity|].
  split; [reflexivity|].
  split; [reflexivity|].
  repeat split; reflexivity.
Qed.

(** C2, refuted as stated: with [BlockReward = 12], header number 10 and
    one uncle at number 1 the specification's list is [-1, 12] (the
    quotient of -12 by 8 truncated toward zero), the returned list holds
    [0, 12], and the reward the loop computes for the uncle before the
    append is -2, the floor. *)
Lemma AccumulateRewards_not_spec_rewards :
  ∃ rewards m1,
    AccumulateRewards 12 header10 [uncle1] machine0 = Some (rewards, m1)
    ∧ values (heap m1) rewards = [Some 0%Z; Some 12%Z]
    ∧ spec_rewards 12 header10 [uncle1] = [(-1)%Z; 12%Z]
    ∧ values (heap m1) rewards ≠ Some <$> spec_rewards 12 header10 [uncle1]
    ∧ uncleReward 12 header10 uncle1 = (-2)%Z.
Proof.
  do 2 eexists. split; [reflexivity|].
  split; [reflexivity|].
  split; [reflexivity|].
  split; [discriminate|reflexivity].
Qed.

(** C2, amended: [AccumulateRewards] always returns; its list has one
    entry per uncle and one more; the last entry holds
    [BlockReward + k * (BlockReward / 32)]; and the reward computed for
    uncle [i], read when it is appended, is
    [(u_i.number + 8 - h.number) * BlockReward / 8] with the quotient
    rounded down. *)
Theorem AccumulateRewards_floor_and_miner
    (BlockReward : Z) (header : Header) (uncles : list Header) (m : Mach) :
  (∃ rewards m',
      AccumulateRewards BlockReward header uncles m = Some (rewards, m')
      ∧ length rewards = S (length uncles)
      ∧ values (heap m') rewards !! length uncles
        = Some (Some (BlockReward
                      + Z.of_nat (length uncles) * (BlockReward / 32))%Z))
  ∧ (∀ i uncle,
       uncles !! i = Some uncle →
       ∃ rewards_i m_i,
         AccumulateRewards_until BlockReward header uncles i m
         = Some (rewards_i, m_i)
         ∧ length rewards_i = S i
         ∧ values (heap m_i) rewards_i !! i
           = Some (Some ((Number uncle + 8 - Number header)
                         * BlockReward / 8)%Z)).
Proof.
  split.
  - do 2 eexists. split; [apply AccumulateRewards_run|].
    split.
    + rewrite length_app, length_replicate. simpl. lia.
    + simpl heap. rewrite values_shared, list_lookup_fmap.
      rewrite <- (length_replicate (length uncles)
                    (shared_cell BlockReward uncles 0)) at 1.
      now rewrite list_lookup_middle.
  - intros i uncle Hi. do 2 eexists.
    split; [apply (AccumulateRewards_until_run _ _ _ _ _ _ Hi)|].
    split; [now rewrite length_replicate|].
    simpl heap. unfold values. rewrite list_lookup_fmap.
    rewrite lookup_replicate_2 by lia. simpl.
    rewrite lookup_app_r by lia.
    now replace (S (length (heap m)) - length (heap m)) with 1 by lia.
Qed.

Lemma AccumulateRewards_floor_and_miner_witness :
  [uncle1] !! 0 = Some uncle1
  ∧ ∃ rewards_i m_i,
      AccumulateRewards_until 12 header10 [uncle1] 0 machine0
      = Some (rewards_i, m_i)
      ∧ length rewards_i = 1
      ∧ values (heap m_i) rewards_i !! 0 = Some (Some (-2)%Z).
Proof.
  split; [reflexivity|].
  exact (proj2 (AccumulateRewards_floor_and_miner 12 header10 [uncle1]
                  machine0) 0 uncle1 eq_refl).
Defined.

(** C6: [AccumulateRewards] always returns, and the world state and the
    events after it are those before it; on the heap it only allocates. *)
Theorem AccumulateRewards_leaves_state
    (BlockReward : Z) (header : Header) (uncles : list Header) (m : Mach) :
  ∃ rewards m',
    AccumulateRewards BlockReward header uncles m = Some (rewards, m')
    ∧ statedb m' = statedb m
    ∧ events m' = events m
    ∧ ∃ fresh, heap m' = heap m ++ fresh.
Proof.
  do 2 eexists. split; [apply AccumulateRewards_run|].
  simpl. repeat split. eexists. reflexivity.
Qed.

(** C5: on the list [AccumulateRewards] returns for [header] and
    [uncles], [PayRewards] returns and credits, in this order, the
    coinbase of each uncle by the value of the entry of the same index
    and then the coinbase of the block by the value of the last entry;
    every balance grows by the total credited to its address, and the
    record of any other address is untouched. *)
Theorem PayRewards_credits_in_order
    (BlockReward : Z) (header : Header) (uncles : list Header)
    (m m1 : Mach) (rewards : list nat) (vs : list Z) :
  AccumulateRewards BlockReward header uncles m = Some (rewards, m1) →
  values (heap m1) rewards = Some <$> vs →
  ∃ m2,
    PayRewards header uncles rewards m1 = Some (tt, m2)
    ∧ events m2
      = events m1
        ++ zip_with EvCredit ((Coinbase <$> uncles) ++ [Coinbase header]) vs
    ∧ heap m2 = heap m1
    ∧ (∀ a, GetBalance (statedb m2) a
            = (GetBalance (statedb m1) a
               + credited_to a
                   (zip ((Coinbase <$> uncles) ++ [Coinbase header]) vs))%Z)
    ∧ (∀ a, a ∉ (Coinbase <$> uncles) ++ [Coinbase header] →
            balances (statedb m2) !! a = balances (statedb m1) !! a).
Proof.
  intros Hacc Hvals.
  rewrite AccumulateRewards_run in Hacc.
  injection Hacc as <- <-. simpl heap in *.
  rewrite values_shared in Hvals.
  apply (inj (fmap Some)) in Hvals. subst vs.
  eexists. split.
  { apply PayRewards_run.
    - now rewrite length_replicate.
    - simpl heap. apply values_shared. }
  simpl. split; [reflexivity|]. split; [reflexivity|].
  split.
  - intros a. apply GetBalance_credits.
  - intros a Ha. apply balances_credits_other.
    rewrite fst_zip; [exact Ha|].
    rewrite !length_app, length_fmap, length_replicate. simpl. lia.
Qed.

Lemma PayRewards_credits_in_order_witness :
  ∃ m2,
    PayRewards header10 [uncle9] [1; 0]
               (mkMach (statedb machine0) [5%Z; 0%Z] []) = Some (tt, m2)
    ∧ events m2
      = [EvCredit "uncleCoinbase" 0; EvCredit "minerCoinbase" 5]
    ∧ heap m2 = [5%Z; 0%Z]
    ∧ (∀ a, GetBalance (statedb m2) a
            = (GetBalance (statedb machine0) a
               + credited_to a
                   [("uncleCoinbase", 0%Z); ("minerCoinbase", 5%Z)])%Z)
    ∧ (∀ a, a ∉ ["uncleCoinbase"; "minerCoinbase"] →
            balances (statedb m2) !! a = balances (statedb machine0) !! a).
Proof.
  exact (PayRewards_credits_in_order 5 header10 [uncle9] machine0
           (mkMach (statedb machine0) [5%Z; 0%Z] []) [1; 0] [0%Z; 5%Z]
           eq_refl eq_refl).
Defined.

(** ** Block processing *)

Module ProcessFacts.

Lemma sum_Z_app (l k : list Z) : sum_Z (l ++ k) = (sum_Z l + sum_Z k)%Z.
Proof. induction l as [|x l IH]; simpl; lia. Qed.

Section Process.
Variable BlockReward : Z.
Variable ApplyMessage :
  StateDB → Z → Header → Transaction → StateDB * Z * (Z + Error).
Variable IntermediateRoot : StateDB → string.
Variable CreateAddress : Address → N → Address.
Variable CreateBloom : list Log → string.

Abbreviation ApplyTransaction :=
  (ApplyTransaction ApplyMessage IntermediateRoot CreateAddress
                    CreateBloom).
Abbreviation process_txs :=
  (process_txs ApplyMessage IntermediateRoot CreateAddress CreateBloom).
Abbreviation Process :=
  (Process BlockReward ApplyMessage IntermediateRoot CreateAddress
           CreateBloom).

Lemma callApplyMessage_run header tx gp m g s' g' res :
  heap m !! gp = Some g →
  ApplyMessage (statedb m) g header tx = (s', g', res) →
  callApplyMessage ApplyMessage header tx gp m =
  Some (res, mkMach s' (<[gp:=g']> (heap m))
                    (events m ++ [EvApply tx res])).
Proof.
  intros Hgp Hres. unfold callApplyMessage.
  rewrite bind_run, (load_ptr _ _ _ Hgp), bind_run. simpl.
  rewrite Hres. rewrite bind_run. simpl. rewrite bind_run.
  rewrite store_run by (simpl; now apply lookup_lt_Some in Hgp).
  reflexivity.
Qed.

(** One transaction: either the executor's error, with nothing added
    to the gas counter, or a receipt for this transaction. *)
Lemma ApplyTransaction_run gp header tx used m g c :
  heap m !! gp = Some g → heap m !! used = Some c → gp ≠ used →
  ∃ m',
    length (heap m') = length (heap m)
    ∧ is_Some (heap m' !! gp)
    ∧ ((∃ err,
          ApplyTransaction gp header tx used m = Some (inr err, m')
          ∧ events m' = events m ++ [EvApply tx (inr err)]
          ∧ heap m' !! used = Some c)
       ∨ (∃ receipt logs gas,
            ApplyTransaction gp header tx used m
            = Some (inl (receipt, logs, gas), m')
            ∧ events m' = events m ++ [EvApply tx (inl gas)]
            ∧ heap m' !! used = Some (c + gas)%Z
            ∧ TxHash receipt = txHash tx
            ∧ GasUsed receipt = gas
            ∧ CumulativeGasUsed receipt = (c + gas)%Z
            ∧ Logs receipt = logs)).
Proof.
  intros Hgp Hused Hne.
  assert (Hlg : gp < length (heap m)) by now apply lookup_lt_Some in Hgp.
  assert (Hlu : used < length (heap m))
    by now apply lookup_lt_Some in Hused.
  destruct (ApplyMessage (statedb m) g header tx) as [[s' g'] res] eqn:Hres.
  unfold Core.ApplyTransaction.
  rewrite bind_run, (callApplyMessage_run _ _ _ _ _ _ _ _ Hgp Hres).
  destruct res as [gas|err].
  - exists (mkMach s' (<[used:=(c + gas)%Z]> (<[gp:=g']> (heap m)))
                   (events m ++ [EvApply tx (inl gas)])).
    split; [simpl; now rewrite !length_insert|].
    split; [simpl; apply lookup_lt_is_Some; now rewrite !length_insert|].
    right. do 3 eexists. split.
    + rewrite bind_run.
      erewrite Add_run; cycle 1.
      { apply load_ptr. simpl. rewrite list_lookup_insert_ne by done.
        exact Hused. }
      { apply load_imm. }
      { simpl. now rewrite length_insert. }
      rewrite get_mach_run, bind_run.
      erewrite load_ptr; cycle 1.
      { simpl. apply list_lookup_insert_eq.
        now rewrite length_insert. }
      unfold GetLogs. rewrite bind_run, get_mach_run.
      reflexivity.
    + simpl. repeat split.
      apply list_lookup_insert_eq. now rewrite length_insert.
  - exists (mkMach s' (<[gp:=g']> (heap m))
                   (events m ++ [EvApply tx (inr err)])).
    split; [simpl; now rewrite length_insert|].
    split; [simpl; apply lookup_lt_is_Some; now rewrite length_insert|].
    left. exists err. split; [reflexivity|].
    simpl. split; [reflexivity|].
    now rewrite list_lookup_insert_ne.
Qed.

Lemma StartRecord_run th bh ti m :
  StartRecord th bh ti m =
  Some (tt, mkMach (mkStateDB (balances (statedb m)) (txlogs (statedb m))
                              th bh ti)
                   (heap m) (events m)).
Proof. reflexivity. Qed.

(** The loop over the transactions returns.  Either every
    transaction got its receipt, or the executor failed on one
    transaction, which is then the last one executed. *)
Lemma process_txs_run block header gp used txs :
  ∀ i receipts logs m g c,
    heap m !! gp = Some g → heap m !! used = Some c → gp ≠ used →
    ∃ m',
      length (heap m') = length (heap m)
      ∧ ((∃ rs,
            process_txs block header gp used i txs receipts logs m
            = Some (inl (receipts ++ rs, logs ++ concat (Logs <$> rs)),
                    m')
            ∧ length rs = length txs
            ∧ TxHash <$> rs = txHash <$> txs
            ∧ events m' = events m ++ applied txs rs
            ∧ heap m' !! used = Some (c + sum_Z (GasUsed <$> rs))%Z)
         ∨ (∃ err pre tx post rs,
              process_txs block header gp used i txs receipts logs m
              = Some (inr err, m')
              ∧ txs = pre ++ tx :: post
              ∧ length rs = length pre
              ∧ events m'
                = events m ++ applied pre rs ++ [EvApply tx (inr err)])).
Proof.
  induction txs as [|tx rest IH]; intros i receipts logs m g c Hgp Hu Hne.
  - exists m. split; [reflexivity|]. left. exists [].
    simpl. rewrite !app_nil_r, Z.add_0_r. repeat split. exact Hu.
  - cbn [Core.process_txs]. rewrite bind_run, StartRecord_run, bind_run.
    set (m1 := mkMach _ (heap m) (events m)).
    destruct (ApplyTransaction_run gp header tx used m1 g c Hgp Hu Hne)
      as (m2 & Hlen2 & [g2 Hgp2] & [Hfail|Hok]).
    + destruct Hfail as (err & Hrun & Hev & _).
      exists m2. split; [exact Hlen2|]. right.
      exists err, [], tx, rest, []. rewrite Hrun.
      repeat split. exact Hev.
    + destruct Hok as (receipt & lg & gas & Hrun & Hev & Hu2 & Hth & Hg
                       & _ & Hlg).
      destruct (IH (S i) (receipts ++ [receipt]) (logs ++ lg) m2 g2
                   (c + gas)%Z Hgp2 Hu2 Hne)
        as (m3 & Hlen3 & [Hall|Hsome]).
      * destruct Hall as (rs & Hrun3 & Hlrs & Hhash & Hev3 & Hu3).
        exists m3. split; [now rewrite Hlen3, Hlen2|].
        left. exists (receipt :: rs).
        rewrite Hrun, Hrun3.
        split; [|split; [|split; [|split]]].
        -- simpl. rewrite Hlg, <- !app_assoc. reflexivity.
        -- simpl. now rewrite Hlrs.
        -- rewrite !fmap_cons. now rewrite Hth, Hhash.
        -- rewrite Hev3, Hev. simpl. rewrite Hg, <- app_assoc.
           reflexivity.
        -- rewrite Hu3, fmap_cons. simpl. rewrite Hg. f_equal. lia.
      * destruct Hsome as (err & pre & tx' & post & rs & Hrun3 & Htxs
                           & Hlrs & Hev3).
        exists m3. split; [now rewrite Hlen3, Hlen2|]. right.
        exists err, (tx :: pre), tx', post, (receipt :: rs).
        rewrite Hrun, Hrun3.
        split; [reflexivity|]. split; [now rewrite Htxs|].
        split; [simpl; now rewrite Hlrs|].
        rewrite Hev3, Hev. simpl. rewrite Hg, <- app_assoc.
        reflexivity.
Qed.

Lemma NewInt_run v m :
  NewInt v m =
  Some (length (heap m), mkMach (statedb m) (heap m ++ [v]) (events m)).
Proof.
  unfold NewInt. rewrite bind_run, new_Int_run.
  rewrite store_run by (simpl; rewrite length_app; simpl; lia).
  simpl. do 3 f_equal.
  rewrite <- (Nat.add_0_r (length (heap m))) at 1.
  now rewrite insert_app_r.
Qed.

(** [Process] returns.  Either every transaction got its receipt and
    the rewards were paid, or the executor failed on one transaction
    and the result carries its error and nothing else. *)
Lemma Process_run block m :
  ∃ m',
    (∃ rs bs vs,
        Process block m
        = Some (mkResult rs (concat (Logs <$> rs)) (length (heap m)) None,
                m')
        ∧ length rs = length (Transactions block)
        ∧ TxHash <$> rs = txHash <$> Transactions block
        ∧ events m'
          = events m ++ applied (Transactions block) rs
              ++ zip_with EvCredit bs vs
        ∧ heap m' !! length (heap m) = Some (sum_Z (GasUsed <$> rs)))
    ∨ (∃ err pre tx post rs,
          Process block m
          = Some (mkResult [] [] (length (heap m)) (Some err), m')
          ∧ Transactions block = pre ++ tx :: post
          ∧ length rs = length pre
          ∧ events m'
            = events m ++ applied pre rs ++ [EvApply tx (inr err)]).
Proof.
  unfold Core.Process.
  set (n := length (heap m)).
  set (header := blockHeader block).
  pose (m2 := mkMach (statedb m)
                     (heap m ++ [0%Z; (0 + GasLimit header)%Z])
                     (events m)).
  assert (Hstart : ∀ B (k : nat → M B),
    (z ← new_Int; gp ← Add z (Ptr z) (Imm (GasLimit header)); k gp)
      (mkMach (statedb m) (heap m ++ [0%Z]) (events m)) = k (S n) m2).
  { intros B k. rewrite bind_run, new_Int_run, bind_run. simpl heap.
    rewrite length_app. simpl length. fold n.
    replace (n + 1) with (S n) by lia.
    erewrite Add_run; cycle 1.
    { apply load_ptr. simpl. rewrite lookup_app_r;
        rewrite length_app; simpl; fold n; [|lia].
      now replace (S n - (n + 1)) with 0 by lia. }
    { apply load_imm. }
    { simpl. rewrite !length_app. simpl. fold n. lia. }
    simpl. f_equal. unfold m2. f_equal.
    rewrite <- app_assoc. simpl.
    change (S n) with (S (length (heap m))).
    apply second_cell. }
  rewrite bind_run, NewInt_run. fold n. rewrite Hstart.
  rewrite bind_run.
  destruct (process_txs_run block header (S n) n (Transactions block) 0
              [] [] m2 (0 + GasLimit header)%Z 0%Z)
    as (m3 & Hlen3 & [Hall|Hsome]).
  { unfold m2. simpl. rewrite lookup_app_r by (fold n; lia).
    fold n. now replace (S n - n) with 1 by lia. }
  { unfold m2. simpl. rewrite lookup_app_r by (fold n; lia).
    fold n. now rewrite Nat.sub_diag. }
  { lia. }
  - destruct Hall as (rs & Hrun & Hlrs & Hhash & Hev & Hu).
    rewrite Hrun. simpl app. rewrite bind_run.
    rewrite AccumulateRewards_run, bind_run.
    set (k := length (Uncles block)).
    set (b := shared_cell BlockReward (Uncles block) 0).
    set (a := (BlockReward + Z.of_nat k * minerBonus BlockReward)%Z).
    erewrite (PayRewards_run header (Uncles block) _ _ (replicate k b) a);
      cycle 1.
    { now rewrite length_replicate. }
    { simpl heap. apply values_shared. }
    eexists. left. exists rs. do 2 eexists.
    split; [reflexivity|]. split; [exact Hlrs|]. split; [exact Hhash|].
    simpl. split.
    + rewrite Hev. unfold m2. simpl. rewrite <- app_assoc. reflexivity.
    + assert (Hn : n < length (heap m3)).
      { rewrite Hlen3. unfold m2. simpl. rewrite length_app. simpl.
        fold n. lia. }
      rewrite lookup_app_l by exact Hn. now rewrite Hu, Z.add_0_l.
  - destruct Hsome as (err & pre & tx & post & rs & Hrun & Htxs & Hlrs
                       & Hev).
    rewrite Hrun. exists m3. right. exists err, pre, tx, post, rs.
    split; [reflexivity|]. split; [exact Htxs|]. split; [exact Hlrs|].
    exact Hev.
Qed.

End Process.
End ProcessFacts.

(** ** Properties of block processing *)

Import ProcessFacts.

Lemma applied_no_error txs rs tx err : EvApply tx (inr err) ∉ applied txs rs.
Proof.
  unfold applied. intros Hin.
  apply elem_of_zip_with in Hin as (t & r & Heq & _). discriminate.
Qed.

Lemma credit_no_error bs vs tx err :
  EvApply tx (inr err) ∉ zip_with EvCredit bs vs.
Proof.
  intros Hin. apply elem_of_zip_with in Hin as (t & r & Heq & _).
  discriminate.
Qed.

Section ProcessClaims.
Variable BlockReward : Z.
Variable ApplyMessage :
  StateDB → Z → Header → Transaction → StateDB * Z * (Z + Error).
Variable IntermediateRoot : StateDB → string.
Variable CreateAddress : Address → N → Address.
Variable CreateBloom : list Log → string.

Abbreviation Process' :=
  (Process BlockReward ApplyMessage IntermediateRoot CreateAddress
           CreateBloom).

(** C3: [Process] returns, and when no call of the executor in the run
    returned an error it returns no error, one receipt per transaction
    of the block in the order of the transactions, and a gas counter
    that holds the sum of the gas the receipts report; the run called
    the executor once per transaction, in order, and each receipt
    reports the gas its call returned. *)
Theorem Process_receipts_and_gas (block : Block) (m : Mach) :
  ∃ res m',
    Process' block m = Some (res, m')
    ∧ ((∀ tx err, EvApply tx (inr err) ∉ new_events m m') →
       resErr res = None
       ∧ length (resReceipts res) = length (Transactions block)
       ∧ TxHash <$> resReceipts res = txHash <$> Transactions block
       ∧ heap m' !! resUsedGas res
         = Some (sum_Z (GasUsed <$> resReceipts res))
       ∧ ∃ bs vs,
           new_events m m'
           = applied (Transactions block) (resReceipts res)
               ++ zip_with EvCredit bs vs).
Proof.
  destruct (Process_run BlockReward ApplyMessage IntermediateRoot
              CreateAddress CreateBloom block m) as (m' & [Hall|Hsome]).
  - destruct Hall as (rs & bs & vs & Hrun & Hlrs & Hhash & Hev & Hu).
    eexists. exists m'. split; [exact Hrun|]. intros _. simpl.
    repeat split; try assumption.
    exists bs, vs. unfold new_events. now rewrite Hev, drop_app_length.
  - destruct Hsome as (err & pre & tx & post & rs & Hrun & Htxs & Hlrs
                       & Hev).
    eexists. exists m'. split; [exact Hrun|]. intros Hnone.
    exfalso. apply (Hnone tx err). unfold new_events.
    rewrite Hev, drop_app_length. apply elem_of_app. right.
    now apply list_elem_of_singleton.
Qed.

(** C4: [Process] returns, and when a call of the executor in the run
    returned an error the result carries that error with a nil receipt
    list and a nil log list; the failing call is the last event of the
    run, after the calls for the transactions before it, so no later
    transaction is executed and nothing is credited. *)
Theorem Process_fails_as_a_unit (block : Block) (m : Mach) :
  ∃ res m',
    Process' block m = Some (res, m')
    ∧ ∀ tx err,
        EvApply tx (inr err) ∈ new_events m m' →
        resErr res = Some err
        ∧ resReceipts res = []
        ∧ resLogs res = []
        ∧ ∃ pre post rs,
            Transactions block = pre ++ tx :: post
            ∧ length rs = length pre
            ∧ new_events m m' = applied pre rs ++ [EvApply tx (inr err)].
Proof.
  destruct (Process_run BlockReward ApplyMessage IntermediateRoot
              CreateAddress CreateBloom block m) as (m' & [Hall|Hsome]).
  - destruct Hall as (rs & bs & vs & Hrun & _ & _ & Hev & _).
    eexists. exists m'. split; [exact Hrun|]. intros tx err Hin.
    exfalso. unfold new_events in Hin.
    rewrite Hev, drop_app_length in Hin.
    apply elem_of_app in Hin as [Hin|Hin].
    + exact (applied_no_error _ _ _ _ Hin).
    + exact (credit_no_error _ _ _ _ Hin).
  - destruct Hsome as (err & pre & tx & post & rs & Hrun & Htxs & Hlrs
                       & Hev).
    eexists. exists m'. split; [exact Hrun|]. intros tx' err' Hin.
    unfold new_events in *. rewrite Hev, drop_app_length in *.
    apply elem_of_app in Hin as [Hin|Hin].
    + exfalso. exact (applied_no_error _ _ _ _ Hin).
    + apply list_elem_of_singleton in Hin. injection Hin as -> ->.
      simpl. repeat split. exists pre, post, rs. repeat split; assumption.
Qed.

End ProcessClaims.

(** ** The storage migrator *)

Module MigratorFacts.
Import Ed Views.

Section Migrator.
Variable C : CoreDb.

Local Abbreviation scheme_ok := (scheme_ok C).
Local Abbreviation old_block := (old_block C).
Local Abbreviation head_ops := (head_ops C).
Local Abbreviation split_ops := (split_ops C).
Local Abbreviation with_records := (with_records C).
Local Abbreviation writable := (writable C).

Lemma Get_legacy db0 db deleted k :
  Inv db0 db deleted → reserved k → k ∉ deleted →
  Get db k = Get db0 k.
Proof.
  intros [_ Hr _ Hl] Hp Hk. unfold Get. rewrite Hr, (Hl k Hp).
  destruct (decide (k ∈ deleted)); [contradiction|reflexivity].
Qed.

Lemma Get_deleted db0 db deleted k :
  Inv db0 db deleted → reserved k → k ∈ deleted →
  (Get db k).1 = [].
Proof.
  intros [_ _ _ Hl] Hp Hk. unfold Get.
  destruct (decide (k ∈ bad_reads db)); [reflexivity|].
  rewrite (Hl k Hp).
  destruct (decide (k ∈ deleted)); [reflexivity|contradiction].
Qed.

Lemma prefix_blockPrefix h : reserved (blockPrefix ++ h).
Proof. left. now apply prefix_app_r. Qed.

(** Under the invariant a block is read as at the start, unless its
    legacy record was deleted: then there is no block. *)
Lemma GetBlockByHashOld_inv db0 db deleted h :
  Inv db0 db deleted →
  GetBlockByHashOld C db h
  = if decide (blockPrefix ++ h ∈ deleted) then None
    else GetBlockByHashOld C db0 h.
Proof.
  intros HI. unfold GetBlockByHashOld.
  destruct (decide (blockPrefix ++ h ∈ deleted)) as [Hd|Hd].
  - pose proof (Get_deleted _ _ _ _ HI (prefix_blockPrefix h) Hd) as Hg.
    destruct (Get db (blockPrefix ++ h)) as [r e]. simpl in Hg.
    now subst r.
  - now rewrite (Get_legacy _ _ _ _ HI (prefix_blockPrefix h) Hd).
Qed.

Lemma Inv_refl db : Inv db db [].
Proof.
  split; reflexivity.
Qed.

Lemma Inv_put db0 db deleted k v o :
  Inv db0 db deleted → ¬ reserved k →
  Inv db0 (with_data (insert k v) o db) deleted.
Proof.
  intros [Hk Hr Hw Hl] Hp. split; simpl; try assumption.
  intros k' Hp'. rewrite lookup_insert_ne; [now apply Hl|].
  intros ->. contradiction.
Qed.

Lemma Inv_delete db0 db deleted k o :
  Inv db0 db deleted →
  Inv db0 (with_data (delete k) o db) (deleted ++ [k]).
Proof.
  intros [Hk Hr Hw Hl]. split; simpl; try assumption.
  intros k' Hp'. destruct (decide (k' = k)) as [->|Hne].
  - rewrite lookup_delete_eq. rewrite decide_True; [reflexivity|].
    apply elem_of_app. right. now apply list_elem_of_singleton.
  - rewrite lookup_delete_ne by congruence. rewrite (Hl k' Hp').
    destruct (decide (k' ∈ deleted)) as [Hd|Hd].
    + rewrite decide_True; [reflexivity|]. apply elem_of_app. now left.
    + rewrite decide_False; [reflexivity|].
      intros [Hin|Hin]%elem_of_app; [contradiction|].
      apply list_elem_of_singleton in Hin. contradiction.
Qed.

Lemma Inv_records db0 db deleted block o :
  scheme_ok → Inv db0 db deleted →
  Inv db0 (mkDb (kind db) (with_records block (data db)) (bad_reads db)
                (bad_writes db) o) deleted.
Proof.
  intros Hs [Hk Hr Hw Hl]. destruct (Hs (Hash_ C block)) as (Ht & Hb & Hh).
  split; simpl; try assumption.
  intros k Hp. unfold with_records.
  rewrite !lookup_insert_ne; [now apply Hl| | |]; intros <-; contradiction.
Qed.

(** The three writes of one block, then [rest]: all three succeed, or
    one fails and its error is returned. *)
Lemma write_records_run block rest db :
  (writable block db
   ∧ try (WriteTd C block)
       (try (WriteBody C block)
         (try (WriteHeader C block) rest)) db
     = rest (mkDb (kind db) (with_records block (data db)) (bad_reads db)
                  (bad_writes db) (oplog db ++ head_ops block)))
  ∨ (¬ writable block db
     ∧ ∃ db' ops k,
       try (WriteTd C block)
         (try (WriteBody C block)
           (try (WriteHeader C block) rest)) db
       = Returned (Some (ErrIO k)) db'
       ∧ oplog db' = oplog db ++ ops ++ [OpFailed k]
       ∧ clean ops).
Proof.
  unfold try, WriteTd, WriteBody, WriteHeader, Put.
  destruct (decide (tdKey C (Hash_ C block) ∈ bad_writes db)) as [H1|H1].
  { right. split; [intros (? & ? & ?); contradiction|].
    eexists _, [], _. split; [reflexivity|].
    split; [reflexivity|constructor]. }
  simpl bad_writes.
  destruct (decide (bodyKey C (Hash_ C block) ∈ bad_writes db))
    as [H2|H2].
  { right. split; [intros (? & ? & ?); contradiction|].
    eexists _, [_], _. split; [reflexivity|].
    simpl. rewrite <- app_assoc. split; [reflexivity|].
    repeat constructor. }
  simpl bad_writes.
  destruct (decide (headerKey C (Hash_ C block) ∈ bad_writes db))
    as [H3|H3].
  { right. split; [intros (? & ? & ?); contradiction|].
    eexists _, [_; _], _. split; [reflexivity|].
    simpl. rewrite <- !app_assoc. split; [reflexivity|].
    repeat constructor. }
  left. split; [now repeat split|].
  f_equal. unfold with_data, with_records, head_ops. simpl.
  f_equal. now rewrite <- !app_assoc.
Qed.

Lemma clean_head_ops block : clean (head_ops block).
Proof. repeat constructor. Qed.

Lemma clean_app ops ops' : clean ops → clean ops' → clean (ops ++ ops').
Proof. apply Forall_app_2. Qed.

Lemma clean_split_ops db keys : clean (flat_map (split_ops db) keys).
Proof.
  induction keys as [|k keys IH]; [constructor|].
  simpl. apply clean_app; [|exact IH].
  unfold split_ops. destruct (old_block db k); [|constructor].
  apply clean_app; [apply clean_head_ops|repeat constructor].
Qed.

(** The loop over the keys ends in one of three ways: it reaches
    [rest] after splitting every migrated key, a write fails and its
    error is returned, or a record that should be a block is not. *)
Lemma upgrade_loop_run head rest db0 keys :
  scheme_ok →
  ∀ db deleted,
    Inv db0 db deleted →
    (∃ db',
        upgrade_loop C head keys rest db = rest db'
        ∧ Inv db0 db' (deleted ++ migrated head keys)
        ∧ oplog db'
          = oplog db ++ flat_map (split_ops db0) (migrated head keys)
        ∧ Forall (λ k, is_Some (old_block db0 k)) (migrated head keys))
    ∨ (∃ db' ops k,
          upgrade_loop C head keys rest db = Returned (Some (ErrIO k)) db'
          ∧ oplog db' = oplog db ++ ops ++ [OpFailed k]
          ∧ clean ops)
    ∨ (∃ db' ops,
          upgrade_loop C head keys rest db = Panicked db'
          ∧ oplog db' = oplog db ++ ops
          ∧ clean ops).
Proof.
  intros Hs. induction keys as [|key keys IH]; intros db deleted HI.
  { left. exists db. simpl. rewrite !app_nil_r.
    repeat split; try apply HI. constructor. }
  cbn [upgrade_loop]. unfold migrated.
  destruct (HasPrefix key blockPrefix) eqn:Hp; simpl negb; cbv iota;
    [destruct (HasSuffix key head) eqn:Hx|].
  - rewrite filter_cons_False
      by (unfold non_head_legacy; rewrite Hp, Hx; simpl; tauto).
    apply IH, HI.
  - rewrite filter_cons_True
      by (unfold non_head_legacy; now rewrite Hp, Hx).
    fold (migrated head keys).
    set (h := BytesToHash C (TrimPrefix key blockPrefix)).
    rewrite (GetBlockByHashOld_inv db0 db deleted h HI).
    destruct (decide (blockPrefix ++ h ∈ deleted)) as [Hd|Hd].
    { right. right. exists db, []. rewrite app_nil_r.
      repeat split. constructor. }
    destruct (GetBlockByHashOld C db0 h) as [block|] eqn:Hold.
    2:{ right. right. exists db, []. rewrite app_nil_r.
        repeat split. constructor. }
    assert (Hsplit : split_ops db0 key = head_ops block ++ [OpDelete key]).
    { unfold split_ops, old_block. fold h. now rewrite Hold. }
    destruct (write_records_run block
                (try (Delete key) (upgrade_loop C head keys rest)) db)
      as [[_ Hrun]|(_ & db' & ops & k & Hrun & Hlog & Hclean)].
    2:{ right. left. exists db', ops, k. now rewrite Hrun. }
    rewrite Hrun. clear Hrun.
    set (db3 := mkDb _ _ _ _ _).
    assert (HI3 : Inv db0 db3 deleted) by now apply Inv_records.
    unfold try, Delete.
    destruct (decide (key ∈ bad_writes db3)) as [Hb|Hb].
    { right. left. eexists _, (head_ops block), key.
      split; [reflexivity|]. simpl. rewrite <- app_assoc.
      split; [reflexivity|apply clean_head_ops]. }
    set (db4 := with_data (delete key) (OpDelete key) db3).
    assert (HI4 : Inv db0 db4 (deleted ++ [key]))
      by now apply Inv_delete.
    assert (Hlog4 : oplog db4 = oplog db ++ split_ops db0 key).
    { rewrite Hsplit. unfold db4, db3. simpl.
      now rewrite <- app_assoc. }
    destruct (IH db4 (deleted ++ [key]) HI4)
      as [(db' & Hrun & HI' & Hlog & Hall)
         |[(db' & ops & k & Hrun & Hlog & Hclean)
          |(db' & ops & Hrun & Hlog & Hclean)]].
    + left. exists db'. split; [exact Hrun|].
      split; [now rewrite <- app_assoc in HI'|].
      split.
      * rewrite Hlog, Hlog4. simpl. now rewrite <- app_assoc.
      * constructor; [|exact Hall]. unfold old_block. fold h.
        rewrite Hold. now eexists.
    + right. left. exists db', (split_ops db0 key ++ ops), k.
      split; [exact Hrun|]. split.
      * rewrite Hlog, Hlog4. now rewrite <- !app_assoc.
      * apply clean_app; [|exact Hclean]. rewrite Hsplit.
        apply clean_app; [apply clean_head_ops|repeat constructor].
    + right. right. exists db', (split_ops db0 key ++ ops).
      split; [exact Hrun|]. split.
      * rewrite Hlog, Hlog4. now rewrite <- !app_assoc.
      * apply clean_app; [|exact Hclean]. rewrite Hsplit.
        apply clean_app; [apply clean_head_ops|repeat constructor].
  - rewrite filter_cons_False
      by (unfold non_head_legacy; rewrite Hp; simpl; tauto).
    apply IH, HI.
Qed.

Lemma elem_of_iterator_keys db k :
  k ∈ iterator_keys db ↔ is_Some (data db !! k).
Proof.
  unfold iterator_keys. rewrite merge_sort_Permutation.
  rewrite list_elem_of_fmap. split.
  - intros ([k' v] & -> & Hin). apply elem_of_map_to_list in Hin.
    now exists v.
  - intros [v Hv]. exists (k, v). split; [reflexivity|].
    now apply elem_of_map_to_list.
Qed.

Lemma elem_of_migrated head keys k :
  k ∈ migrated head keys
  ↔ k ∈ keys ∧ blockPrefix `prefix_of` k ∧ ¬ head `suffix_of` k.
Proof.
  unfold migrated. rewrite list_elem_of_filter.
  unfold non_head_legacy, HasPrefix, HasSuffix.
  rewrite andb_True, negb_True, !bool_decide_spec. tauto.
Qed.

Lemma head_not_migrated head keys :
  blockPrefix ++ head ∉ migrated head keys.
Proof.
  intros (_ & _ & Hno)%elem_of_migrated. apply Hno.
  now apply suffix_app_r.
Qed.

(** With nothing to migrate the loop goes straight to [rest]. *)
Lemma upgrade_loop_skip head rest keys db :
  migrated head keys = [] →
  upgrade_loop C head keys rest db = rest db.
Proof.
  induction keys as [|key keys IH]; intros Hnone; [reflexivity|].
  cbn [upgrade_loop]. unfold migrated in Hnone.
  destruct (HasPrefix key blockPrefix) eqn:Hp; simpl negb; cbv iota;
    [destruct (HasSuffix key head) eqn:Hx|].
  - rewrite filter_cons_False in Hnone
      by (unfold non_head_legacy; rewrite Hp, Hx; simpl; tauto).
    now apply IH.
  - rewrite filter_cons_True in Hnone
      by (unfold non_head_legacy; now rewrite Hp, Hx).
    discriminate.
  - rewrite filter_cons_False in Hnone
      by (unfold non_head_legacy; rewrite Hp; simpl; tauto).
    now apply IH.
Qed.

Lemma with_records_idem block d :
  with_records block (with_records block d) = with_records block d.
Proof.
  apply map_eq. intros k. unfold with_records.
  rewrite !lookup_insert. repeat case_decide; reflexivity.
Qed.

(** The run on a LevelDB store whose head is a legacy record. *)
Lemma upgrade_legacy_run db record current :
  scheme_ok →
  kind db = LDBDatabase →
  Get db LastBlock = (record, None) →
  GetBlockByHashOld C db (BytesToHash C record) = Some current →
  let head := BytesToHash C record in
  let keys := migrated head (iterator_keys db) in
  (∃ db',
      upgradeChainDatabase C db = Returned None db'
      ∧ Inv db db' keys
      ∧ writable current db
      ∧ (∃ d, data db' = with_records current d)
      ∧ oplog db'
        = oplog db ++ flat_map (split_ops db) keys ++ head_ops current
      ∧ Forall (λ k, is_Some (old_block db k)) keys)
  ∨ (∃ db' ops k,
        upgradeChainDatabase C db = Returned (Some (ErrIO k)) db'
        ∧ oplog db' = oplog db ++ ops ++ [OpFailed k]
        ∧ clean ops)
  ∨ (∃ db' ops,
        upgradeChainDatabase C db = Panicked db'
        ∧ oplog db' = oplog db ++ ops
        ∧ clean ops).
Proof.
  intros Hs Hkind Hget Hcur head keys.
  unfold upgradeChainDatabase. rewrite Hget. cbv zeta.
  rewrite Hcur, Hkind. fold head.
  destruct (upgrade_loop_run head (upgrade_head C head) db
              (iterator_keys db) Hs db [] (Inv_refl db))
    as [(db1 & Hrun & HI & Hlog & Hall)
       |[(db' & ops & k & Hrun & Hlog & Hclean)
        |(db' & ops & Hrun & Hlog & Hclean)]].
  - rewrite Hrun. simpl in HI. fold keys in HI, Hlog, Hall.
    unfold upgrade_head.
    rewrite (GetBlockByHashOld_inv db db1 keys head HI).
    rewrite decide_False by apply head_not_migrated.
    fold head in Hcur. rewrite Hcur.
    destruct (write_records_run current (Returned None) db1)
      as [[Hw Hrun']|(_ & db' & ops & k & Hrun' & Hlog' & Hclean)].
    + left. eexists. split; [exact Hrun'|].
      split; [now apply Inv_records|].
      split.
      { unfold writable in *. now rewrite <- (inv_writes _ _ _ HI). }
      split; [now eexists|].
      split; [simpl; now rewrite Hlog, <- app_assoc|exact Hall].
    + right. left. exists db', (flat_map (split_ops db) keys ++ ops), k.
      split; [exact Hrun'|]. split.
      * rewrite Hlog', Hlog. now rewrite <- !app_assoc.
      * apply clean_app; [apply clean_split_ops|exact Hclean].
  - right. left. exists db', ops, k. now rewrite Hrun.
  - right. right. exists db', ops. now rewrite Hrun.
Qed.

End Migrator.
End MigratorFacts.

(** ** Properties of the storage migrator *)

Import Ed MigratorFacts.

Lemma LastBlock_not_legacy : ¬ blockPrefix `prefix_of` LastBlock.
Proof. intros [k Hk]. discriminate Hk. Qed.


(** C8: when a run of the migrator returned without error, the run that
    follows it on the store it left returns without error as well and
    leaves every record of the store as it was. *)
Theorem upgrade_twice_is_noop (C : CoreDb) (db db1 : Database) :
  scheme_ok C →
  upgradeChainDatabase C db = Returned None db1 →
  ∃ db2,
    upgradeChainDatabase C db1 = Returned None db2
    ∧ data db2 = data db1.
Proof.
  intros Hs Hrun.
  destruct (Get db LastBlock) as [record [e|]] eqn:Hget.
  { unfold upgradeChainDatabase in Hrun. rewrite Hget in Hrun.
    injection Hrun as <-. exists db. split; [|reflexivity].
    unfold upgradeChainDatabase. now rewrite Hget. }
  destruct (GetBlockByHashOld C db (BytesToHash C record))
    as [current|] eqn:Hcur.
  2:{ unfold upgradeChainDatabase in Hrun. rewrite Hget, Hcur in Hrun.
      injection Hrun as <-. exists db. split; [|reflexivity].
      unfold upgradeChainDatabase. now rewrite Hget, Hcur. }
  destruct (kind db) eqn:Hkind.
  2:{ unfold upgradeChainDatabase in Hrun.
      rewrite Hget, Hcur, Hkind in Hrun.
      injection Hrun as <-. exists db. split; [|reflexivity].
      unfold upgradeChainDatabase. now rewrite Hget, Hcur, Hkind. }
  set (head := BytesToHash C record) in *.
  set (keys := migrated head (iterator_keys db)).
  destruct (upgrade_legacy_run C db record current Hs Hkind Hget Hcur)
    as [(db' & Hrun1 & HI & Hw & [d Hd] & _)
       |[(db' & ops & k & Hrun1 & _)|(db' & ops & Hrun1 & _)]];
    rewrite Hrun in Hrun1; try discriminate.
  injection Hrun1 as <-. fold head in HI. fold keys in HI.
  assert (Hget1 : Get db1 LastBlock = (record, None)).
  { rewrite (Get_legacy db db1 keys LastBlock HI); [exact Hget|now right|].
    intros (_ & Hp & _)%elem_of_migrated.
    exact (LastBlock_not_legacy Hp). }
  assert (Hcur1 : GetBlockByHashOld C db1 head = Some current).
  { rewrite (GetBlockByHashOld_inv C db db1 keys head HI).
    now rewrite decide_False by apply head_not_migrated. }
  assert (Hnone : migrated head (iterator_keys db1) = []).
  { destruct (migrated head (iterator_keys db1)) as [|k rest] eqn:Hm;
      [reflexivity|exfalso].
    assert (Hin : k ∈ migrated head (iterator_keys db1))
      by (rewrite Hm; apply list_elem_of_here).
    apply elem_of_migrated in Hin as (Hk & Hp & Hx).
    apply elem_of_iterator_keys in Hk.
    rewrite (inv_legacy _ _ _ HI k (or_introl Hp)) in Hk.
    destruct (decide (k ∈ keys)) as [Hin|Hnot].
    - now destruct Hk.
    - apply Hnot. apply elem_of_migrated.
      now rewrite elem_of_iterator_keys. }
  unfold upgradeChainDatabase. rewrite Hget1. cbv zeta. fold head.
  rewrite Hcur1, (inv_kind _ _ _ HI), Hkind.
  rewrite upgrade_loop_skip by exact Hnone.
  unfold upgrade_head. rewrite Hcur1.
  destruct (write_records_run C current (Returned None) db1)
    as [[_ Hrun2]|[Hnw _]].
  - rewrite Hrun2. eexists. split; [reflexivity|]. simpl.
    rewrite Hd. apply with_records_idem.
  - exfalso. apply Hnw. unfold writable in *.
    now rewrite (inv_writes _ _ _ HI).
Qed.

(** ** Failures of the store *)

Module FailureFacts.
Import Ed MigratorFacts.

Lemma tracked_returned db err : tracked db (Returned err db).
Proof. exists []. rewrite app_nil_r. split; [reflexivity|left; constructor]. Qed.

Lemma tracked_panicked db : tracked db (Panicked db).
Proof. exists []. rewrite app_nil_r. split; [reflexivity|left; constructor]. Qed.

Lemma tracked_after db db1 ops1 o :
  oplog db1 = oplog db ++ ops1 → clean ops1 →
  tracked db1 o → tracked db o.
Proof.
  intros Hlog Hclean (ops & Ho & Hcases).
  exists (ops1 ++ ops). split; [now rewrite Ho, Hlog, <- app_assoc|].
  destruct Hcases as [Hc|(ops' & k & -> & Hc & Hret)].
  - left. now apply Forall_app_2.
  - right. exists (ops1 ++ ops'), k. rewrite <- app_assoc.
    split; [reflexivity|]. split; [now apply Forall_app_2|exact Hret].
Qed.

Lemma tracked_failed db k :
  tracked db (Returned (Some (ErrIO k)) (with_data id (OpFailed k) db)).
Proof.
  exists [OpFailed k]. split; [reflexivity|].
  right. exists [], k. repeat split. constructor.
Qed.

Lemma try_Put_tracked k v rest db :
  (∀ db', tracked db' (rest db')) → tracked db (try (Put k v) rest db).
Proof.
  intros Hrest. unfold try, Put.
  destruct (decide (k ∈ bad_writes db)); [apply tracked_failed|].
  eapply tracked_after; [| |apply Hrest]; [reflexivity|].
  repeat constructor.
Qed.

Lemma try_Delete_tracked k rest db :
  (∀ db', tracked db' (rest db')) → tracked db (try (Delete k) rest db).
Proof.
  intros Hrest. unfold try, Delete.
  destruct (decide (k ∈ bad_writes db)); [apply tracked_failed|].
  eapply tracked_after; [| |apply Hrest]; [reflexivity|].
  repeat constructor.
Qed.

Lemma upgrade_loop_tracked C head rest keys :
  (∀ db', tracked db' (rest db')) →
  ∀ db, tracked db (upgrade_loop C head keys rest db).
Proof.
  intros Hrest. induction keys as [|key keys IH]; intros db; [apply Hrest|].
  cbn [upgrade_loop].
  destruct (negb (HasPrefix key blockPrefix)); [apply IH|].
  destruct (HasSuffix key head); [apply IH|].
  destruct (GetBlockByHashOld C db _); [|apply tracked_panicked].
  unfold WriteTd, WriteBody, WriteHeader.
  apply try_Put_tracked. intros db1.
  apply try_Put_tracked. intros db2.
  apply try_Put_tracked. intros db3.
  apply try_Delete_tracked. exact IH.
Qed.

Lemma upgradeChainDatabase_tracked C db :
  tracked db (upgradeChainDatabase C db).
Proof.
  unfold upgradeChainDatabase.
  destruct (Get db LastBlock) as [record [e|]]; [apply tracked_returned|].
  destruct (GetBlockByHashOld C db _); [|apply tracked_returned].
  destruct (kind db); [|apply tracked_returned].
  apply upgrade_loop_tracked. intros db'. unfold upgrade_head.
  destruct (GetBlockByHashOld C db' _); [|apply tracked_panicked].
  unfold WriteTd, WriteBody, WriteHeader.
  apply try_Put_tracked. intros db1.
  apply try_Put_tracked. intros db2.
  apply try_Put_tracked. intros db3.
  apply tracked_returned.
Qed.

Lemma tracked_reports db o k :
  tracked db o → OpFailed k ∈ new_ops db (db_of o) →
  o = Returned (Some (ErrIO k)) (db_of o).
Proof.
  intros (ops & Hlog & Hcases) Hin. unfold new_ops in Hin.
  rewrite Hlog, drop_app_length in Hin.
  destruct Hcases as [Hc|(ops' & k' & -> & Hc & Hret)].
  - unfold clean in Hc. rewrite Forall_forall in Hc.
    specialize (Hc _ Hin). discriminate.
  - apply elem_of_app in Hin as [Hin|Hin].
    + unfold clean in Hc. rewrite Forall_forall in Hc.
      specialize (Hc _ Hin). discriminate.
    + apply list_elem_of_singleton in Hin. injection Hin as ->.
      exact Hret.
Qed.

End FailureFacts.

(** ** The bloom index builder *)

Module BloomFacts.
Import Ed Views MigratorFacts.

Section BloomIndex.
Variable B : BloomDb.

Local Abbreviation keys_ok := (keys_ok B).
Local Abbreviation missing := (missing B).
Local Abbreviation InvB := (InvB B).

Lemma InvB_refl db : InvB db db.
Proof.
  split; try reflexivity. exists []. rewrite app_nil_r.
  split; [reflexivity|constructor].
Qed.

Lemma InvB_write db0 db i receipts :
  InvB db0 db → InvB db0 (WriteMipmapBloom B db i receipts).2.
Proof.
  intros [Hr Hw Hd (ops & Hlog & Hops)]. unfold WriteMipmapBloom, Put.
  destruct (decide (mipmapKey B i ∈ bad_writes db)); simpl.
  - split; simpl; try assumption.
    exists (ops ++ [OpFailed (mipmapKey B i)]).
    split; [now rewrite Hlog, <- app_assoc|].
    apply Forall_app_2; [exact Hops|]. repeat constructor. now exists i.
  - split; simpl; try assumption.
    + intros k Hk. rewrite lookup_insert_ne by (apply not_eq_sym, Hk).
      now apply Hd.
    + eexists (ops ++ [OpPut (mipmapKey B i) _]).
      split; [now rewrite Hlog, <- app_assoc|].
      apply Forall_app_2; [exact Hops|]. repeat constructor. now exists i.
Qed.

Lemma Get_InvB db0 db k :
  InvB db0 db → (∀ j, k ≠ mipmapKey B j) → Get db k = Get db0 k.
Proof.
  intros [Hr _ Hd _] Hk. unfold Get. now rewrite Hr, (Hd k Hk).
Qed.

Lemma GetCanonicalHash_InvB db0 db i :
  keys_ok → InvB db0 db →
  GetCanonicalHash B db i = GetCanonicalHash B db0 i.
Proof.
  intros [Hc _] HI. unfold GetCanonicalHash.
  rewrite (Get_InvB db0 db _ HI); [reflexivity|].
  intros j Heq. exact (Hc j i (eq_sym Heq)).
Qed.

(** The walk with a canonical hash missing at [imiss]: it stops with
    the corruption error at the first missing number, unless the
    fuel runs out before. *)
Lemma bloom_loop_missing db0 number imiss :
  keys_ok →
  (imiss ≤ number)%N → (number < 2 ^ 64)%N → missing db0 imiss →
  ∀ fuel cur db,
    (cur ≤ imiss)%N → InvB db0 db →
    ∃ db',
      InvB db0 db'
      ∧ ((∃ first,
            bloom_loop B fuel cur number db
            = Returned (Some (ErrCorrupt first)) db'
            ∧ (cur ≤ first ≤ imiss)%N
            ∧ missing db0 first
            ∧ ∀ j, (cur ≤ j < first)%N → ¬ missing db0 j)
         ∨ (bloom_loop B fuel cur number db = OutOfFuel db'
            ∧ fuel ≤ N.to_nat (imiss - cur))).
Proof.
  intros Hk Hle Hlt Hmiss.
  induction fuel as [|fuel IH]; intros cur db Hcur HI.
  { exists db. split; [exact HI|]. right. split; [reflexivity|lia]. }
  cbn [bloom_loop].
  assert (Hc : (cur <=? number)%N = true) by (apply N.leb_le; lia).
  rewrite Hc. cbv zeta.
  rewrite (GetCanonicalHash_InvB db0 db cur Hk HI).
  destruct (decide (GetCanonicalHash B db0 cur = zeroHash)) as [Hz|Hz].
  { exists db. split; [exact HI|]. left. exists cur.
    split; [reflexivity|]. split; [lia|]. split; [exact Hz|].
    intros j Hj. lia. }
  assert (Hne : cur ≠ imiss) by (intros ->; contradiction).
  assert (Hnext : ((cur + 1) mod 2 ^ 64 = cur + 1)%N)
    by (apply N.mod_small; lia).
  rewrite Hnext.
  set (db1 := (WriteMipmapBloom B db cur _).2).
  destruct (IH (cur + 1)%N db1 ltac:(lia) (InvB_write _ _ _ _ HI))
    as (db' & HI' & [(first & Hrun & Hrange & Hmf & Hbefore)|[Hrun Hf]]).
  - exists db'. split; [exact HI'|]. left. exists first.
    split; [exact Hrun|]. split; [lia|]. split; [exact Hmf|].
    intros j Hj. destruct (decide (j = cur)) as [->|Hjc]; [exact Hz|].
    apply Hbefore. lia.
  - exists db'. split; [exact HI'|]. right. split; [exact Hrun|]. lia.
Qed.

End BloomIndex.
End BloomFacts.

(** ** Properties of the bloom index builder and of failures *)

Import FailureFacts BloomFacts Demo.

(** C9, amended: on a store whose version marker is not the current
    one, whose head block is found and whose canonical hash is missing
    for a number [i] up to the head, the builder writes nothing under the
    key of the version marker, leaves its record as it was, so that the
    next run finds the version not current again, and, given fuel for
    [i + 1] tests of the loop condition, returns the corruption error at
    the first number whose canonical hash is missing. *)
Theorem bloom_index_detects_missing_hash
    (B : BloomDb) (fuel : nat) (db : Database) (latest : Block) (i : N) :
  keys_ok B →
  version_is_current B db = false →
  GetBlock B db (GetHeadBlockHash B db) = Some latest →
  (i ≤ NumberU64 latest)%N →
  GetCanonicalHash B db i = zeroHash →
  let out := addMipmapBloomBins B fuel db in
  (∀ o, o ∈ new_ops db (db_of out) → op_key o ≠ versionKey)
  ∧ data (db_of out) !! versionKey = data db !! versionKey
  ∧ version_is_current B (db_of out) = false
  ∧ (N.to_nat i < fuel →
     ∃ first,
       out = Returned (Some (ErrCorrupt first)) (db_of out)
       ∧ (first ≤ i)%N
       ∧ GetCanonicalHash B db first = zeroHash
       ∧ ∀ j, (j < first)%N → GetCanonicalHash B db j ≠ zeroHash).
Proof.
  intros Hk Hver Hblock Hle Hmiss out.
  assert (Hlt : (NumberU64 latest < 2 ^ 64)%N)
    by (unfold NumberU64; apply N.mod_lt; discriminate).
  destruct (bloom_loop_missing B db (NumberU64 latest) i Hk Hle Hlt Hmiss
              fuel 0%N db (N.le_0_l i) (InvB_refl B db))
    as (db' & HI & Hcases).
  assert (Hout : db_of out = db'
                 ∧ (N.to_nat i < fuel →
                    ∃ first,
                      out = Returned (Some (ErrCorrupt first)) db'
                      ∧ (first ≤ i)%N
                      ∧ GetCanonicalHash B db first = zeroHash
                      ∧ ∀ j, (j < first)%N →
                             GetCanonicalHash B db j ≠ zeroHash)).
  { unfold out, addMipmapBloomBins, bloom_body. rewrite Hver, Hblock.
    destruct Hcases as [(first & Hrun & Hrange & Hmf & Hbefore)|[Hrun Hf]];
      rewrite Hrun; simpl.
    - split; [reflexivity|]. intros _. exists first.
      split; [reflexivity|]. split; [lia|]. split; [exact Hmf|].
      intros j Hj. apply Hbefore. lia.
    - split; [reflexivity|]. intros Hfuel. rewrite N.sub_0_r in Hf. lia. }
  destruct Hout as [Hdb Hret]. rewrite Hdb.
  destruct HI as [Hr Hw Hd (ops & Hlog & Hops)].
  destruct Hk as [_ Hkv].
  assert (Hvk : ∀ j, versionKey ≠ mipmapKey B j)
    by (intros j Heq; exact (Hkv j (eq_sym Heq))).
  split; [|split; [|split]].
  - intros o Hin. unfold new_ops in Hin.
    rewrite Hlog, drop_app_length in Hin.
    rewrite Forall_forall in Hops. destruct (Hops o Hin) as [j Hj].
    rewrite Hj. apply not_eq_sym, Hvk.
  - now apply Hd.
  - unfold version_is_current in *. unfold Get in *.
    now rewrite Hr, (Hd versionKey Hvk).
  - exact Hret.
Qed.

(** C10, amended: a failed write or delete of the migrator ends the run
    with the error of that write; when the walk of the bloom index
    builder returned without error and the store refuses the version
    marker, the builder returns the error of that write; and a failed
    read of the head pointer makes the migrator return without error and
    without a change. *)
Theorem write_failures_are_returned
    (C : CoreDb) (B : BloomDb) (db : Database) :
  (∀ k, OpFailed k ∈ new_ops db (db_of (upgradeChainDatabase C db)) →
        upgradeChainDatabase C db
        = Returned (Some (ErrIO k)) (db_of (upgradeChainDatabase C db)))
  ∧ (∀ fuel db1 val,
       version_is_current B db = false →
       bloom_body B fuel db = Returned None db1 →
       encodeVersion B mipmapVersion = Some val →
       versionKey ∈ bad_writes db1 →
       addMipmapBloomBins B fuel db
       = Returned (Some (ErrIO versionKey))
                  (with_data id (OpFailed versionKey) db1))
  ∧ (∀ record e,
       Get db LastBlock = (record, Some e) →
       upgradeChainDatabase C db = Returned None db).
Proof.
  split; [|split].
  - intros k. apply tracked_reports, upgradeChainDatabase_tracked.
  - intros fuel db1 val Hver Hbody Henc Hbad.
    unfold addMipmapBloomBins. rewrite Hver, Hbody. unfold store_version.
    rewrite Henc. unfold Put. now rewrite decide_True by exact Hbad.
  - intros record e Hget. unfold upgradeChainDatabase. now rewrite Hget.
Qed.

(** ** The properties at the concrete instance *)

Lemma demo_scheme_ok : scheme_ok demoCore.
Proof.
  intros h. repeat split; intros [[k Hk]|Heq]; discriminate.
Qed.

Lemma demo_keys_ok : keys_ok demoBloom.
Proof. split; intros; discriminate. Qed.

Lemma Process_receipts_and_gas_witness :
  ∃ res m',
    demoProcess block_ok machine0 = Some (res, m')
    ∧ (∀ tx err, EvApply tx (inr err) ∉ new_events machine0 m')
    ∧ resErr res = None
    ∧ TxHash <$> resReceipts res = ["h1"; "h2"]
    ∧ heap m' !! resUsedGas res = Some 42000%Z.
Proof.
  destruct (Process_receipts_and_gas 5 demoExec (λ _, "root") (λ a _, a)
              (λ _, "bloom") block_ok machine0)
    as (res & m' & Hrun & Himp).
  exists res, m'. split; [exact Hrun|].
  vm_compute in Hrun. injection Hrun as <- <-.
  assert (Hnone : ∀ tx err,
    EvApply tx (inr err)
    ∉ new_events machine0
        (mkMach (mkStateDB (<["minerCoinbase" := 5%Z]> ∅) ∅ "h2"
                           "blockhash" 1)
                [42000%Z; 58000%Z; 5%Z; 0%Z]
                [EvApply tx1 (inl 21000%Z); EvApply tx2 (inl 21000%Z);
                 EvCredit "minerCoinbase" 5])).
  { intros tx err Hin. vm_compute in Hin.
    repeat (apply elem_of_cons in Hin as [Hin|Hin]; [discriminate|]).
    now apply elem_of_nil in Hin. }
  split; [exact Hnone|].
  destruct (Himp Hnone) as (He & _ & Hh & Hg & _).
  split; [exact He|]. split; [exact Hh|exact Hg].
Defined.

Lemma Process_fails_as_a_unit_witness :
  ∃ res m',
    demoProcess block_bad machine0 = Some (res, m')
    ∧ EvApply tx_bad (inr "out of gas") ∈ new_events machine0 m'
    ∧ resErr res = Some "out of gas"
    ∧ resReceipts res = []
    ∧ resLogs res = []
    ∧ new_events machine0 m'
      = [EvApply tx1 (inl 21000%Z); EvApply tx_bad (inr "out of gas")].
Proof.
  destruct (Process_fails_as_a_unit 5 demoExec (λ _, "root") (λ a _, a)
              (λ _, "bloom") block_bad machine0)
    as (res & m' & Hrun & Himp).
  exists res, m'. split; [exact Hrun|].
  vm_compute in Hrun. injection Hrun as <- <-.
  assert (Hin : EvApply tx_bad (inr "out of gas")
                ∈ new_events machine0
                    (mkMach (mkStateDB ∅ ∅ "h3" "blockhash" 1)
                            [21000%Z; 79000%Z]
                            [EvApply tx1 (inl 21000%Z);
                             EvApply tx_bad (inr "out of gas")])).
  { apply list_elem_of_further, list_elem_of_here. }
  split; [exact Hin|].
  destruct (Himp _ _ Hin) as (He & Hr & Hl & _).
  split; [exact He|]. split; [exact Hr|]. split; [exact Hl|reflexivity].
Defined.



Lemma upgrade_twice_is_noop_witness :
  ∃ db2,
    upgradeChainDatabase demoCore legacy_store_after = Returned None db2
    ∧ data db2 = data legacy_store_after.
Proof.
  apply (upgrade_twice_is_noop demoCore (legacy_store LDBDatabase ∅ ∅)
           legacy_store_after demo_scheme_ok).
  vm_compute. reflexivity.
Defined.

(** C9, refuted as stated: the head has number 2 and the canonical hash
    of number 1 is missing, but the version marker is already the
    current one, and the builder returns without error, with any
    fuel. *)
Lemma bloom_index_current_version_skips_walk :
  let db := broken_chain (Some (bytes_of "2")) ∅ in
  (NumberU64 <$> GetBlock demoBloom db (GetHeadBlockHash demoBloom db))
  = Some 2%N
  ∧ GetCanonicalHash demoBloom db 1 = zeroHash
  ∧ ∀ fuel, addMipmapBloomBins demoBloom fuel db = Returned None db.
Proof.
  split; [vm_compute; reflexivity|].
  split; [vm_compute; reflexivity|].
  intros fuel. reflexivity.
Qed.

Lemma bloom_index_detects_missing_hash_witness :
  let db := broken_chain None ∅ in
  let out := addMipmapBloomBins demoBloom 3 db in
  out = Returned (Some (ErrCorrupt 1)) (db_of out)
  ∧ data (db_of out) !! versionKey = None
  ∧ version_is_current demoBloom (db_of out) = false.
Proof.
  intros db out.
  assert (Hver0 : version_is_current demoBloom db = false)
    by (vm_compute; reflexivity).
  assert (Hblock : GetBlock demoBloom db (GetHeadBlockHash demoBloom db)
                   = Some (mkBlock (mkHeader 2 "miner" 0) "" [] []))
    by (vm_compute; reflexivity).
  destruct (bloom_index_detects_missing_hash demoBloom 3 db
              (mkBlock (mkHeader 2 "miner" 0) "" [] []) 1
              demo_keys_ok Hver0 Hblock)
    as (_ & Hdata & Hver & Hret).
  { vm_compute. discriminate. }
  { vm_compute. reflexivity. }
  split; [vm_compute; reflexivity|].
  split; [exact Hdata|exact Hver].
Defined.

(** C10, refuted as stated: the read of the head pointer fails on a
    store in the legacy layout, and the migrator returns without error
    and leaves the store as it is. *)
Lemma upgrade_masks_failed_head_read :
  let db := legacy_store LDBDatabase {[LastBlock]} ∅ in
  Get db LastBlock = ([], Some (ErrIO LastBlock))
  ∧ upgradeChainDatabase demoCore db = Returned None db.
Proof. split; vm_compute; reflexivity. Qed.

Lemma write_failures_are_returned_witness :
  let db := legacy_store LDBDatabase ∅ {[bytes_of "body-" ++ hashA]} in
  let out := upgradeChainDatabase demoCore db in
  OpFailed (bytes_of "body-" ++ hashA) ∈ new_ops db (db_of out)
  ∧ out = Returned (Some (ErrIO (bytes_of "body-" ++ hashA))) (db_of out)
  ∧ addMipmapBloomBins demoBloom 4 (whole_chain {[versionKey]})
    = Returned (Some (ErrIO versionKey))
               (with_data id (OpFailed versionKey) whole_chain_walked).
Proof.
  intros db out.
  assert (Hin : OpFailed (bytes_of "body-" ++ hashA)
                ∈ new_ops db (db_of out)).
  { vm_compute. apply list_elem_of_further, list_elem_of_here. }
  split; [exact Hin|]. split.
  - exact (proj1 (write_failures_are_returned demoCore demoBloom db) _ Hin).
  - apply (proj1 (proj2 (write_failures_are_returned demoCore demoBloom
                           (whole_chain {[versionKey]})))
             4 whole_chain_walked (bytes_of "2")).
    + vm_compute. reflexivity.
    + vm_compute. reflexivity.
    + reflexivity.
    + vm_compute. reflexivity.
Defined.

(** ** More on block processing *)

Module ProcessMore.
Import Big BigOps Run Core Views RewardFacts ProcessFacts ProcessViews.

Lemma gas_spent_app evs evs' :
  gas_spent (evs ++ evs') = (gas_spent evs + gas_spent evs')%Z.
Proof.
  induction evs as [|e evs IH]; simpl; [lia|].
  destruct e as [tx [gas|err]|a v]; lia.
Qed.

Lemma gas_spent_applied txs rs :
  length rs = length txs →
  gas_spent (applied txs rs) = sum_Z (GasUsed <$> rs).
Proof.
  revert rs. induction txs as [|tx txs IH]; intros [|r rs] Hlen;
    try discriminate; [reflexivity|].
  simpl. rewrite IH by (simpl in Hlen; lia). reflexivity.
Qed.

Lemma gas_spent_credits bs vs : gas_spent (zip_with EvCredit bs vs) = 0%Z.
Proof.
  revert vs. induction bs as [|b bs IH]; intros [|v vs]; simpl; auto.
Qed.

Section Process.
Variable BlockReward : Z.
Variable ApplyMessage :
  StateDB → Z → Header → Transaction → StateDB * Z * (Z + Error).
Variable IntermediateRoot : StateDB → string.
Variable CreateAddress : Address → N → Address.
Variable CreateBloom : list Log → string.

Local Abbreviation ApplyTransaction :=
  (ApplyTransaction ApplyMessage IntermediateRoot CreateAddress
                    CreateBloom).
Local Abbreviation process_txs :=
  (process_txs ApplyMessage IntermediateRoot CreateAddress CreateBloom).
Local Abbreviation Process :=
  (Process BlockReward ApplyMessage IntermediateRoot CreateAddress
           CreateBloom).

Lemma running_totals_cons c r rs :
  CumulativeGasUsed r = (c + GasUsed r)%Z →
  running_totals (c + GasUsed r) rs →
  running_totals c (r :: rs).
Proof.
  intros Hr Hrs [|j] r' Hj; simpl in Hj.
  - injection Hj as <-. simpl. rewrite Hr. lia.
  - rewrite (Hrs j r' Hj). rewrite firstn_cons, fmap_cons. simpl. lia.
Qed.

(** The loop over the transactions once more, with the gas counter in
    both endings and the running totals of the receipts. *)
Lemma process_txs_gas block header gp used txs :
  ∀ i receipts logs m g c,
    heap m !! gp = Some g → heap m !! used = Some c → gp ≠ used →
    ∃ m' rs,
      heap m' !! used = Some (c + sum_Z (GasUsed <$> rs))%Z
      ∧ running_totals c rs
      ∧ length (heap m') = length (heap m)
      ∧ ((process_txs block header gp used i txs receipts logs m
          = Some (inl (receipts ++ rs, logs ++ concat (Logs <$> rs)), m')
          ∧ length rs = length txs
          ∧ events m' = events m ++ applied txs rs)
         ∨ (∃ err pre tx post,
              process_txs block header gp used i txs receipts logs m
              = Some (inr err, m')
              ∧ txs = pre ++ tx :: post
              ∧ length rs = length pre
              ∧ events m'
                = events m ++ applied pre rs ++ [EvApply tx (inr err)])).
Proof.
  induction txs as [|tx rest IH]; intros i receipts logs m g c Hgp Hu Hne.
  - exists m, []. simpl. rewrite !app_nil_r, Z.add_0_r.
    split; [exact Hu|]. split; [intros j r Hj; discriminate|].
    split; [reflexivity|]. left. repeat split.
  - cbn [Core.process_txs]. rewrite bind_run, StartRecord_run, bind_run.
    set (m1 := mkMach _ (heap m) (events m)).
    destruct (ApplyTransaction_run ApplyMessage IntermediateRoot
                CreateAddress CreateBloom gp header tx used m1 g c
                Hgp Hu Hne)
      as (m2 & Hlen2 & [g2 Hgp2] & [Hfail|Hok]).
    + destruct Hfail as (err & Hrun & Hev & Hu2).
      exists m2, []. simpl. rewrite Z.add_0_r.
      split; [exact Hu2|]. split; [intros j r Hj; discriminate|].
      split; [exact Hlen2|]. right.
      exists err, [], tx, rest. rewrite Hrun. repeat split. exact Hev.
    + destruct Hok as (receipt & lg & gas & Hrun & Hev & Hu2 & Hth & Hg
                       & Hcum & Hlg).
      destruct (IH (S i) (receipts ++ [receipt]) (logs ++ lg) m2 g2
                   (c + gas)%Z Hgp2 Hu2 Hne)
        as (m3 & rs & Hu3 & Htot & Hlen3 & Hcases).
      exists m3, (receipt :: rs).
      split; [rewrite Hu3, fmap_cons; simpl; rewrite Hg; f_equal; lia|].
      split.
      { apply running_totals_cons; rewrite Hg; [exact Hcum|exact Htot]. }
      split; [now rewrite Hlen3, Hlen2|].
      destruct Hcases as [(Hrun3 & Hlrs & Hev3)
                         |(err & pre & tx' & post & Hrun3 & Htxs & Hlrs
                           & Hev3)].
      * left. rewrite Hrun, Hrun3. split; [|split].
        -- simpl. rewrite Hlg, <- !app_assoc. reflexivity.
        -- simpl. now rewrite Hlrs.
        -- rewrite Hev3, Hev. simpl. rewrite Hg, <- app_assoc.
           reflexivity.
      * right. exists err, (tx :: pre), tx', post.
        rewrite Hrun, Hrun3.
        split; [reflexivity|]. split; [now rewrite Htxs|].
        split; [simpl; now rewrite Hlrs|].
        rewrite Hev3, Hev. simpl. rewrite Hg, <- app_assoc.
        reflexivity.
Qed.

Lemma replicate_shared_cell uncles :
  replicate (length uncles) (shared_cell BlockReward uncles 0)
  = replicate (length uncles) (BlockReward / 32)%Z.
Proof. destruct uncles; reflexivity. Qed.

(** [Process] once more: the gas counter and the running totals in both
    endings, and the amounts paid when it succeeds. *)
Lemma Process_full block m :
  ∃ m' rs,
    heap m' !! length (heap m) = Some (sum_Z (GasUsed <$> rs))
    ∧ running_totals 0 rs
    ∧ ((Process block m
        = Some (mkResult rs (concat (Logs <$> rs)) (length (heap m)) None,
                m')
        ∧ length rs = length (Transactions block)
        ∧ events m'
          = events m ++ applied (Transactions block) rs
              ++ zip_with EvCredit
                   (beneficiaries (blockHeader block) (Uncles block))
                   (paid_amounts BlockReward (length (Uncles block))))
       ∨ (∃ err pre tx post,
             Process block m
             = Some (mkResult [] [] (length (heap m)) (Some err), m')
             ∧ Transactions block = pre ++ tx :: post
             ∧ length rs = length pre
             ∧ events m'
               = events m ++ applied pre rs ++ [EvApply tx (inr err)])).
Proof.
  unfold Core.Process.
  set (n := length (heap m)).
  set (header := blockHeader block).
  pose (m2 := mkMach (statedb m)
                     (heap m ++ [0%Z; (0 + GasLimit header)%Z])
                     (events m)).
  assert (Hstart : ∀ B (k : nat → M B),
    (z ← new_Int; gp ← Add z (Ptr z) (Imm (GasLimit header)); k gp)
      (mkMach (statedb m) (heap m ++ [0%Z]) (events m)) = k (S n) m2).
  { intros B k. rewrite bind_run, new_Int_run, bind_run. simpl heap.
    rewrite length_app. simpl length. fold n.
    replace (n + 1) with (S n) by lia.
    erewrite Add_run; cycle 1.
    { apply load_ptr. simpl. rewrite lookup_app_r;
        rewrite length_app; simpl; fold n; [|lia].
      now replace (S n - (n + 1)) with 0 by lia. }
    { apply load_imm. }
    { simpl. rewrite !length_app. simpl. fold n. lia. }
    simpl. f_equal. unfold m2. f_equal.
    rewrite <- app_assoc. simpl.
    change (S n) with (S (length (heap m))).
    apply second_cell. }
  rewrite bind_run, NewInt_run. fold n. rewrite Hstart.
  rewrite bind_run. fold m2.
  destruct (process_txs_gas block header (S n) n (Transactions block) 0
              [] [] m2 (0 + GasLimit header)%Z 0%Z)
    as (m3 & rs & Hu & Htot & Hlen3 & Hcases).
  { unfold m2. simpl. rewrite lookup_app_r by (fold n; lia).
    fold n. now replace (S n - n) with 1 by lia. }
  { unfold m2. simpl. rewrite lookup_app_r by (fold n; lia).
    fold n. now rewrite Nat.sub_diag. }
  { lia. }
  rewrite Z.add_0_l in Hu.
  assert (Hn : n < length (heap m3)).
  { rewrite Hlen3. unfold m2. simpl. rewrite length_app. simpl.
    fold n. lia. }
  destruct Hcases as [(Hrun & Hlrs & Hev)
                     |(err & pre & tx & post & Hrun & Htxs & Hlrs & Hev)].
  - rewrite Hrun. simpl app. rewrite bind_run.
    rewrite AccumulateRewards_run, bind_run.
    set (k := length (Uncles block)).
    set (b := shared_cell BlockReward (Uncles block) 0).
    set (a := (BlockReward + Z.of_nat k * minerBonus BlockReward)%Z).
    erewrite (PayRewards_run header (Uncles block) _ _ (replicate k b) a);
      cycle 1.
    { now rewrite length_replicate. }
    { simpl heap. apply values_shared. }
    eexists _, rs.
    split; [|split; [exact Htot|left; split; [reflexivity|]]].
    { simpl. now rewrite lookup_app_l by exact Hn. }
    split; [exact Hlrs|].
    unfold b, k. rewrite replicate_shared_cell.
    simpl. rewrite Hev. unfold m2. simpl. rewrite <- app_assoc.
    reflexivity.
  - rewrite Hrun. exists m3, rs. split; [exact Hu|].
    split; [exact Htot|]. right. exists err, pre, tx, post.
    repeat split; assumption.
Qed.

End Process.
End ProcessMore.

(** ** More properties of block processing *)

Import ProcessViews ProcessMore.

Section ProcessExtras.
Variable BlockReward : Z.
Variable ApplyMessage :
  StateDB → Z → Header → Transaction → StateDB * Z * (Z + Error).
Variable IntermediateRoot : StateDB → string.
Variable CreateAddress : Address → N → Address.
Variable CreateBloom : list Log → string.

Local Abbreviation Process_ :=
  (Process BlockReward ApplyMessage IntermediateRoot CreateAddress
           CreateBloom).

(** X1: the gas counter [Process] returns holds the gas of the executor
    calls of the run that succeeded, whether the run ends with an error
    or not. *)
Theorem Process_gas_counter (block : Block) (m : Mach) :
  ∃ res m',
    Process_ block m = Some (res, m')
    ∧ heap m' !! resUsedGas res = Some (gas_spent (new_events m m')).
Proof.
  destruct (Process_full BlockReward ApplyMessage IntermediateRoot
              CreateAddress CreateBloom block m)
    as (m' & rs & Hu & _ & [(Hrun & Hlrs & Hev)
                           |(err & pre & tx & post & Hrun & _ & Hlrs & Hev)]).
  - eexists _, m'. split; [exact Hrun|]. simpl. rewrite Hu. f_equal.
    unfold new_events. rewrite Hev, drop_app_length.
    rewrite gas_spent_app, gas_spent_applied, gas_spent_credits by exact Hlrs.
    lia.
  - eexists _, m'. split; [exact Hrun|]. simpl. rewrite Hu. f_equal.
    unfold new_events. rewrite Hev, drop_app_length.
    rewrite gas_spent_app, gas_spent_applied by exact Hlrs. simpl. lia.
Qed.

(** X2: in the receipts [Process] returns, the cumulative gas of each
    receipt is the sum of the gas of the receipts up to and including
    it, and the returned logs are the logs of the receipts, in order. *)
Theorem Process_running_totals (block : Block) (m : Mach) :
  ∃ res m',
    Process_ block m = Some (res, m')
    ∧ running_totals 0 (resReceipts res)
    ∧ resLogs res = concat (Logs <$> resReceipts res).
Proof.
  destruct (Process_full BlockReward ApplyMessage IntermediateRoot
              CreateAddress CreateBloom block m)
    as (m' & rs & _ & Htot & [(Hrun & _)
                             |(err & pre & tx & post & Hrun & _)]).
  - eexists _, m'. split; [exact Hrun|]. simpl. split; [exact Htot|].
    reflexivity.
  - eexists _, m'. split; [exact Hrun|]. simpl.
    split; [intros j r Hj; discriminate|reflexivity].
Qed.

(** X3: a run of [Process] that returns no error has called the executor
    once per transaction and has then credited, in this order, the
    coinbase of every uncle by [BlockReward / 32] and the coinbase of the
    block by [BlockReward + k * (BlockReward / 32)]; a run that returns
    an error has credited nothing. *)
Theorem Process_pays_after_transactions (block : Block) (m : Mach) :
  ∃ res m',
    Process_ block m = Some (res, m')
    ∧ match resErr res with
      | None =>
          length (resReceipts res) = length (Transactions block)
          ∧ new_events m m'
            = applied (Transactions block) (resReceipts res)
                ++ zip_with EvCredit
                     (beneficiaries (blockHeader block) (Uncles block))
                     (paid_amounts BlockReward (length (Uncles block)))
      | Some _ => Forall (λ e, is_apply e = true) (new_events m m')
      end.
Proof.
  destruct (Process_full BlockReward ApplyMessage IntermediateRoot
              CreateAddress CreateBloom block m)
    as (m' & rs & _ & _ & [(Hrun & Hlrs & Hev)
                          |(err & pre & tx & post & Hrun & _ & Hlrs & Hev)]).
  - eexists _, m'. split; [exact Hrun|]. simpl. split; [exact Hlrs|].
    unfold new_events. now rewrite Hev, drop_app_length.
  - eexists _, m'. split; [exact Hrun|]. simpl.
    unfold new_events. rewrite Hev, drop_app_length.
    apply Forall_app_2; [|repeat constructor].
    apply Forall_forall. intros e He.
    apply elem_of_zip_with in He as (t & r & -> & _). reflexivity.
Qed.

(** X4: on a block without transactions [Process] returns no error, no
    receipt and no log, leaves the gas counter at zero and never calls
    the executor; the rewards are paid all the same. *)
Theorem Process_empty_block (block : Block) (m : Mach) :
  Transactions block = [] →
  ∃ res m',
    Process_ block m = Some (res, m')
    ∧ resErr res = None
    ∧ resReceipts res = []
    ∧ resLogs res = []
    ∧ heap m' !! resUsedGas res = Some 0%Z
    ∧ new_events m m'
      = zip_with EvCredit (beneficiaries (blockHeader block) (Uncles block))
                 (paid_amounts BlockReward (length (Uncles block))).
Proof.
  intros Hnil.
  destruct (Process_full BlockReward ApplyMessage IntermediateRoot
              CreateAddress CreateBloom block m)
    as (m' & rs & Hu & _ & [(Hrun & Hlrs & Hev)
                           |(err & pre & tx & post & Hrun & Htxs & _)]).
  - rewrite Hnil in Hlrs, Hev. destruct rs; [|discriminate].
    eexists _, m'. split; [exact Hrun|]. simpl.
    repeat split; [exact Hu|].
    unfold new_events. now rewrite Hev, drop_app_length.
  - rewrite Hnil in Htxs. now destruct pre.
Qed.

End ProcessExtras.

Lemma Process_empty_block_witness :
  ∃ res m',
    Process 5 demoExec (λ _, "root") (λ a _, a) (λ _, "bloom")
            (mkBlock header10 "blockhash" [] [uncle9]) machine0
    = Some (res, m')
    ∧ resErr res = None
    ∧ heap m' !! resUsedGas res = Some 0%Z
    ∧ new_events machine0 m'
      = [EvCredit "uncleCoinbase" 0; EvCredit "minerCoinbase" 5].
Proof.
  destruct (Process_empty_block 5 demoExec (λ _, "root") (λ a _, a)
              (λ _, "bloom") (mkBlock header10 "blockhash" [] [uncle9])
              machine0 eq_refl)
    as (res & m' & Hrun & He & _ & _ & Hg & Hev).
  exists res, m'. repeat split; assumption.
Defined.

(** ** Bounds of the reward list *)

Module PayBounds.
Import Big BigOps Run Core Views RewardFacts.

(** Whenever the loop of [PayRewards] returns, it has stepped through
    all the uncles. *)
Lemma pay_loop_index uncles rewards :
  ∀ i m j m',
    pay_loop uncles rewards i m = Some (j, m') → j = i + length uncles.
Proof.
  induction uncles as [|u rest IH]; intros i m j m' Hrun.
  - simpl in Hrun. injection Hrun as <- _. simpl. lia.
  - cbn [pay_loop] in Hrun.
    destruct (rewards !! i) as [p|]; [|discriminate].
    rewrite bind_run in Hrun.
    destruct (AddBalance (Coinbase u) (Ptr p) m) as [[[] m1]|];
      [|discriminate].
    apply IH in Hrun. simpl. lia.
Qed.

(** With enough entries, all of them pointers into the heap, the loop
    returns. *)
Lemma pay_loop_returns uncles rewards :
  ∀ i m,
    (∀ p, p ∈ rewards → p < length (heap m)) →
    i + length uncles ≤ length rewards →
    ∃ m', pay_loop uncles rewards i m = Some (i + length uncles, m')
          ∧ heap m' = heap m.
Proof.
  induction uncles as [|u rest IH]; intros i m Hptr Hlen.
  - exists m. simpl. rewrite Nat.add_0_r. split; reflexivity.
  - simpl in Hlen.
    destruct (lookup_lt_is_Some_2 rewards i ltac:(lia)) as [p Hp].
    assert (Hin : p ∈ rewards) by (apply list_elem_of_lookup; eauto).
    destruct (lookup_lt_is_Some_2 (heap m) p (Hptr p Hin)) as [v Hv].
    cbn [pay_loop]. rewrite Hp, bind_run, (AddBalance_run _ _ _ _ Hv).
    destruct (IH (S i) (mkMach (credit (Coinbase u) v (statedb m)) (heap m)
                               (events m ++ [EvCredit (Coinbase u) v]))
                 Hptr ltac:(lia)) as (m' & Hrun & Hheap).
    exists m'. rewrite Hrun. split; [|exact Hheap].
    do 2 f_equal. simpl. lia.
Qed.

End PayBounds.

Import PayBounds.

(** X5: on a list of pointers into the heap, [PayRewards] returns exactly
    when the list has more entries than there are uncles; with a shorter
    list the index [rewards[i]] is out of range and the call panics. *)
Theorem PayRewards_needs_one_entry_per_beneficiary
    (header : Header) (uncles : list Header) (rewards : list nat)
    (m : Mach) :
  (∀ p, p ∈ rewards → p < length (heap m)) →
  (is_Some (PayRewards header uncles rewards m)
   ↔ length uncles < length rewards).
Proof.
  intros Hptr. unfold PayRewards. rewrite bind_run. split.
  - intros [[[] m'] Hrun].
    destruct (pay_loop uncles rewards 0 m) as [[j m1]|] eqn:Hloop;
      [|discriminate].
    apply pay_loop_index in Hloop. subst j. simpl in Hrun.
    destruct (rewards !! length uncles) as [p|] eqn:Hp; [|discriminate].
    now apply lookup_lt_Some in Hp.
  - intros Hlen.
    destruct (pay_loop_returns uncles rewards 0 m Hptr ltac:(simpl; lia))
      as (m1 & Hloop & Hheap).
    rewrite Hloop. simpl.
    destruct (lookup_lt_is_Some_2 rewards (length uncles) Hlen) as [p Hp].
    rewrite Hp.
    assert (Hin : p ∈ rewards) by (apply list_elem_of_lookup; eauto).
    destruct (lookup_lt_is_Some_2 (heap m1) p
                ltac:(rewrite Hheap; exact (Hptr p Hin))) as [v Hv].
    rewrite (AddBalance_run _ _ _ _ Hv). now eexists.
Qed.

Lemma PayRewards_needs_one_entry_per_beneficiary_witness :
  (is_Some (PayRewards header10 [uncle9] [1; 0]
              (mkMach (statedb machine0) [5%Z; 0%Z] []))
   ↔ 1 < 2)
  ∧ PayRewards header10 [uncle9] [0]
      (mkMach (statedb machine0) [5%Z; 0%Z] []) = None.
Proof.
  split.
  - apply (PayRewards_needs_one_entry_per_beneficiary header10 [uncle9]
             [1; 0] (mkMach (statedb machine0) [5%Z; 0%Z] [])).
    intros p Hp. simpl.
    repeat (apply elem_of_cons in Hp as [->|Hp]; [lia|]).
    now apply elem_of_nil in Hp.
  - reflexivity.
Defined.

(** X6: for a block without uncles [AccumulateRewards] returns a single
    entry that holds [BlockReward], and [PayRewards] on it credits the
    coinbase of the block by [BlockReward] and changes the balance of no
    other address. *)
Theorem rewards_without_uncles
    (BlockReward : Z) (header : Header) (m : Mach) :
  ∃ reward m1 m2,
    AccumulateRewards BlockReward header [] m = Some ([reward], m1)
    ∧ heap m1 !! reward = Some BlockReward
    ∧ PayRewards header [] [reward] m1 = Some (tt, m2)
    ∧ new_events m m2 = [EvCredit (Coinbase header) BlockReward]
    ∧ GetBalance (statedb m2) (Coinbase header)
      = (GetBalance (statedb m) (Coinbase header) + BlockReward)%Z
    ∧ ∀ a, a ≠ Coinbase header →
           balances (statedb m2) !! a = balances (statedb m) !! a.
Proof.
  do 3 eexists.
  split; [exact (AccumulateRewards_run BlockReward header [] m)|].
  simpl. rewrite Z.add_0_r.
  assert (Hv : (heap m ++ [BlockReward; 0%Z]) !! length (heap m)
               = Some BlockReward).
  { rewrite lookup_app_r by lia. now rewrite Nat.sub_diag. }
  split; [exact Hv|].
  unfold PayRewards. rewrite bind_run. simpl.
  rewrite (AddBalance_run _ _ BlockReward) by exact Hv.
  split; [reflexivity|]. simpl.
  split; [unfold new_events; simpl; now rewrite drop_app_length|].
  split.
  - rewrite GetBalance_credit. now rewrite decide_True.
  - intros a Ha. now rewrite lookup_insert_ne.
Qed.

(** ** More on the storage migrator *)

Module MigratorMore.
Import Ed Views MigratorFacts MigratorViews.

Section Migrator.
Variable C : CoreDb.

Local Abbreviation scheme_ok := (scheme_ok C).
Local Abbreviation old_block := (old_block C).
Local Abbreviation head_ops := (head_ops C).
Local Abbreviation split_ops := (split_ops C).
Local Abbreviation Shape := (Shape C).
Local Abbreviation foreign := (foreign C).
Local Abbreviation framed := (framed C).

Lemma Inv_failed db0 db deleted o :
  Inv db0 db deleted → Inv db0 (with_data id o db) deleted.
Proof. intros [Hk Hr Hw Hl]. split; simpl; assumption. Qed.

Ltac solve_inv :=
  repeat first
    [ assumption
    | apply Inv_failed
    | apply Inv_delete
    | apply Inv_put ].

Lemma Shape_tail head db0 db deleted o tail :
  oplog (db_of o) = oplog db ++ tail →
  Forall (λ op, is_delete op = false) tail →
  Inv db0 (db_of o) deleted →
  Shape head db0 db deleted o.
Proof.
  intros Hlog Htail HI. exists [], tail. simpl. rewrite app_nil_r.
  split; [exact Hlog|]. split; [exact Htail|].
  split; [apply Forall_nil_2|]. split; [apply Forall_nil_2|exact HI].
Qed.

(** The last step keeps the shape: it only writes records. *)
Lemma upgrade_head_shape head db0 db deleted :
  scheme_ok → Inv db0 db deleted →
  Shape head db0 db deleted (upgrade_head C head db).
Proof.
  intros Hs HI. unfold upgrade_head.
  destruct (GetBlockByHashOld C db head) as [current|].
  2:{ apply (Shape_tail _ _ _ _ _ []); [now rewrite app_nil_r|constructor|].
      exact HI. }
  destruct (Hs (Hash_ C current)) as (Ht & Hb & Hh).
  unfold try, WriteTd, WriteBody, WriteHeader, Put.
  destruct (decide (tdKey C (Hash_ C current) ∈ bad_writes db)).
  { eapply (Shape_tail _ _ _ _ _ [OpFailed _]); [reflexivity| |].
    - repeat constructor.
    - solve_inv. }
  simpl bad_writes.
  destruct (decide (bodyKey C (Hash_ C current) ∈ bad_writes db)).
  { eapply (Shape_tail _ _ _ _ _ [OpPut _ _; OpFailed _]).
    - simpl. now rewrite <- app_assoc.
    - repeat constructor.
    - solve_inv. }
  simpl bad_writes.
  destruct (decide (headerKey C (Hash_ C current) ∈ bad_writes db)).
  { eapply (Shape_tail _ _ _ _ _ [OpPut _ _; OpPut _ _; OpFailed _]).
    - simpl. now rewrite <- !app_assoc.
    - repeat constructor.
    - solve_inv. }
  eapply (Shape_tail _ _ _ _ _ [OpPut _ _; OpPut _ _; OpPut _ _]).
  - simpl. now rewrite <- !app_assoc.
  - repeat constructor.
  - simpl. solve_inv.
Qed.

(** The loop keeps the shape, however it ends. *)
Lemma upgrade_loop_shape head rest db0 keys :
  scheme_ok →
  (∀ db deleted, Inv db0 db deleted → Shape head db0 db deleted (rest db)) →
  ∀ db deleted,
    Inv db0 db deleted →
    Shape head db0 db deleted (upgrade_loop C head keys rest db).
Proof.
  intros Hs Hrest. induction keys as [|key keys IH]; intros db deleted HI.
  { now apply Hrest. }
  cbn [upgrade_loop].
  destruct (HasPrefix key blockPrefix) eqn:Hp; simpl negb; cbv iota;
    [destruct (HasSuffix key head) eqn:Hx|]; try (now apply IH).
  set (h := BytesToHash C (TrimPrefix key blockPrefix)).
  rewrite (GetBlockByHashOld_inv C db0 db deleted h HI).
  destruct (decide (blockPrefix ++ h ∈ deleted)) as [Hd|Hd].
  { apply (Shape_tail _ _ _ _ _ []); [now rewrite app_nil_r|constructor|].
    exact HI. }
  destruct (GetBlockByHashOld C db0 h) as [block|] eqn:Hold.
  2:{ apply (Shape_tail _ _ _ _ _ []); [now rewrite app_nil_r|constructor|].
      exact HI. }
  assert (Hsplit : split_ops db0 key = head_ops block ++ [OpDelete key]).
  { unfold Views.split_ops, Views.old_block. fold h. now rewrite Hold. }
  destruct (Hs (Hash_ C block)) as (Ht & Hb & Hh).
  unfold try, WriteTd, WriteBody, WriteHeader, Put, Delete.
  destruct (decide (tdKey C (Hash_ C block) ∈ bad_writes db)).
  { eapply (Shape_tail _ _ _ _ _ [OpFailed _]); [reflexivity| |].
    - repeat constructor.
    - solve_inv. }
  simpl bad_writes.
  destruct (decide (bodyKey C (Hash_ C block) ∈ bad_writes db)).
  { eapply (Shape_tail _ _ _ _ _ [OpPut _ _; OpFailed _]).
    - simpl. now rewrite <- app_assoc.
    - repeat constructor.
    - solve_inv. }
  simpl bad_writes.
  destruct (decide (headerKey C (Hash_ C block) ∈ bad_writes db)).
  { eapply (Shape_tail _ _ _ _ _ [OpPut _ _; OpPut _ _; OpFailed _]).
    - simpl. now rewrite <- !app_assoc.
    - repeat constructor.
    - solve_inv. }
  simpl bad_writes.
  destruct (decide (key ∈ bad_writes db)).
  { eapply (Shape_tail _ _ _ _ _
              [OpPut _ _; OpPut _ _; OpPut _ _; OpFailed _]).
    - simpl. now rewrite <- !app_assoc.
    - repeat constructor.
    - solve_inv. }
  match goal with
  | |- Shape _ _ _ _ (upgrade_loop _ _ _ _ ?d) => set (db4 := d)
  end.
  assert (HI4 : Inv db0 db4 (deleted ++ [key])).
  { unfold db4. solve_inv. }
  assert (Hlog4 : oplog db4 = oplog db ++ split_ops db0 key).
  { rewrite Hsplit. unfold db4. simpl. now rewrite <- !app_assoc. }
  destruct (IH db4 (deleted ++ [key]) HI4)
    as (done & tail & Hlog & Htail & Hdone & Hnhl & HI').
  exists (key :: done), tail. split; [|split; [|split; [|split]]].
  - rewrite Hlog, Hlog4. simpl. now rewrite <- !app_assoc.
  - exact Htail.
  - constructor; [|exact Hdone]. unfold Views.old_block. fold h.
    rewrite Hold. now eexists.
  - constructor; [|exact Hnhl]. unfold non_head_legacy.
    now rewrite Hp, Hx.
  - now rewrite <- app_assoc in HI'.
Qed.

(** Every run of the migrator has the shape, from its own start. *)
Lemma upgradeChainDatabase_shape db :
  scheme_ok →
  ∃ head, (∀ record, Get db LastBlock = (record, None) →
                     head = BytesToHash C record)
          ∧ Shape head db db [] (upgradeChainDatabase C db).
Proof.
  intros Hs. unfold upgradeChainDatabase.
  destruct (Get db LastBlock) as [record [e|]].
  { exists []. split; [intros r Hr; discriminate|].
    apply (Shape_tail _ _ _ _ _ []); [now rewrite app_nil_r|constructor|].
    apply Inv_refl. }
  exists (BytesToHash C record).
  split; [intros r Hr; now injection Hr as <-|]. cbv zeta.
  destruct (GetBlockByHashOld C db (BytesToHash C record)).
  2:{ apply (Shape_tail _ _ _ _ _ []); [now rewrite app_nil_r|constructor|].
      apply Inv_refl. }
  destruct (kind db).
  2:{ apply (Shape_tail _ _ _ _ _ []); [now rewrite app_nil_r|constructor|].
      apply Inv_refl. }
  apply upgrade_loop_shape; [exact Hs| |apply Inv_refl].
  intros db1 deleted HI. now apply upgrade_head_shape.
Qed.


(** *** Foreign keys *)

Lemma framed_returned db err : framed db (Returned err db).
Proof. intros k _. reflexivity. Qed.

Lemma framed_panicked db : framed db (Panicked db).
Proof. intros k _. reflexivity. Qed.

Lemma framed_after db db1 o :
  (∀ k, foreign k → data db1 !! k = data db !! k) →
  framed db1 o → framed db o.
Proof. intros H1 Ho k Hk. now rewrite (Ho k Hk), (H1 k Hk). Qed.

Lemma try_Put_framed k v rest db :
  ¬ foreign k →
  (∀ db', framed db' (rest db')) → framed db (try (Put k v) rest db).
Proof.
  intros Hk Hrest. unfold try, Put.
  destruct (decide (k ∈ bad_writes db)).
  { intros k' _. reflexivity. }
  eapply framed_after; [|apply Hrest].
  intros k' Hk'. simpl. rewrite lookup_insert_ne; [reflexivity|].
  intros ->. contradiction.
Qed.

Lemma try_Delete_framed k rest db :
  ¬ foreign k →
  (∀ db', framed db' (rest db')) → framed db (try (Delete k) rest db).
Proof.
  intros Hk Hrest. unfold try, Delete.
  destruct (decide (k ∈ bad_writes db)).
  { intros k' _. reflexivity. }
  eapply framed_after; [|apply Hrest].
  intros k' Hk'. simpl. rewrite lookup_delete_ne; [reflexivity|].
  intros ->. contradiction.
Qed.

Lemma tdKey_not_foreign h : ¬ foreign (tdKey C h).
Proof. intros [_ Hk]. now destruct (Hk h) as (? & _). Qed.

Lemma bodyKey_not_foreign h : ¬ foreign (bodyKey C h).
Proof. intros [_ Hk]. now destruct (Hk h) as (_ & ? & _). Qed.

Lemma headerKey_not_foreign h : ¬ foreign (headerKey C h).
Proof. intros [_ Hk]. now destruct (Hk h) as (_ & _ & ?). Qed.

Lemma upgrade_loop_framed head rest keys :
  (∀ db', framed db' (rest db')) →
  ∀ db, framed db (upgrade_loop C head keys rest db).
Proof.
  intros Hrest. induction keys as [|key keys IH]; intros db; [apply Hrest|].
  cbn [upgrade_loop].
  destruct (HasPrefix key blockPrefix) eqn:Hp; simpl negb; cbv iota;
    [|apply IH].
  destruct (HasSuffix key head); [apply IH|].
  destruct (GetBlockByHashOld C db _); [|apply framed_panicked].
  unfold WriteTd, WriteBody, WriteHeader.
  apply try_Put_framed; [apply tdKey_not_foreign|]. intros db1.
  apply try_Put_framed; [apply bodyKey_not_foreign|]. intros db2.
  apply try_Put_framed; [apply headerKey_not_foreign|]. intros db3.
  apply try_Delete_framed; [|exact IH].
  intros [Hno _]. apply Hno. unfold HasPrefix in Hp.
  now apply bool_decide_eq_true in Hp.
Qed.

Lemma upgradeChainDatabase_framed db :
  framed db (upgradeChainDatabase C db).
Proof.
  unfold upgradeChainDatabase.
  destruct (Get db LastBlock) as [record [e|]]; [apply framed_returned|].
  destruct (GetBlockByHashOld C db _); [|apply framed_returned].
  destruct (kind db); [|apply framed_returned].
  apply upgrade_loop_framed. intros db'. unfold upgrade_head.
  destruct (GetBlockByHashOld C db' _); [|apply framed_panicked].
  unfold WriteTd, WriteBody, WriteHeader.
  apply try_Put_framed; [apply tdKey_not_foreign|]. intros db1.
  apply try_Put_framed; [apply bodyKey_not_foreign|]. intros db2.
  apply try_Put_framed; [apply headerKey_not_foreign|]. intros db3.
  apply framed_returned.
Qed.

End Migrator.
End MigratorMore.

(** ** More properties of the storage migrator *)

Import MigratorViews MigratorMore.



(** X8: however a run of the migrator ends, the record under the head
    pointer and every record under a legacy key are as before or, for a
    legacy key that does not end in the head hash, gone; so the head
    pointer still resolves to the same combined record, and a store
    that was detected as legacy before the run is detected as legacy
    after it. *)
Theorem upgrade_keeps_head_detectable
    (C : CoreDb) (db : Database) (record : list ascii) :
  scheme_ok C →
  Get db LastBlock = (record, None) →
  let db' := db_of (upgradeChainDatabase C db) in
  let head := BytesToHash C record in
  Get db' LastBlock = (record, None)
  ∧ GetBlockByHashOld C db' head = GetBlockByHashOld C db head
  ∧ kind db' = kind db
  ∧ ∀ k, blockPrefix `prefix_of` k →
         data db' !! k = data db !! k
         ∨ (data db' !! k = None ∧ ¬ head `suffix_of` k).
Proof.
  intros Hs Hget db' head.
  destruct (upgradeChainDatabase_shape C db Hs)
    as (head' & Hhead & done & tail & _ & _ & _ & Hnhl & HI).
  rewrite (Hhead record Hget) in Hnhl. fold head in Hnhl.
  fold db' in HI. simpl in HI.
  assert (Hdone : ∀ k, k ∈ done →
                       blockPrefix `prefix_of` k ∧ ¬ head `suffix_of` k).
  { intros k Hk. rewrite Forall_forall in Hnhl. specialize (Hnhl k Hk).
    unfold non_head_legacy, HasPrefix, HasSuffix in Hnhl.
    rewrite andb_True, negb_True, !bool_decide_spec in Hnhl. exact Hnhl. }
  split; [|split; [|split]].
  - rewrite (Get_legacy db db' done LastBlock HI); [exact Hget|now right|].
    intros Hin. destruct (Hdone _ Hin) as [Hp _].
    exact (LastBlock_not_legacy Hp).
  - rewrite (GetBlockByHashOld_inv C db db' done head HI).
    rewrite decide_False; [reflexivity|].
    intros Hin. destruct (Hdone _ Hin) as [_ Hx]. apply Hx.
    now apply suffix_app_r.
  - apply (inv_kind _ _ _ HI).
  - intros k Hp. rewrite (inv_legacy _ _ _ HI k (or_introl Hp)).
    destruct (decide (k ∈ done)) as [Hin|Hin]; [right|now left].
    split; [reflexivity|]. now destruct (Hdone _ Hin).
Qed.

Lemma upgrade_keeps_head_detectable_witness :
  let db := legacy_store LDBDatabase ∅ {[bytes_of "td-" ++ hashH]} in
  let out := upgradeChainDatabase demoCore db in
  out = Returned (Some (ErrIO (bytes_of "td-" ++ hashH))) (db_of out)
  ∧ Get (db_of out) LastBlock = (hashH, None)
  ∧ GetBlockByHashOld demoCore (db_of out) (pad32 hashH) = Some recordH.
Proof.
  intros db out.
  assert (Hget : Get db LastBlock = (hashH, None))
    by (vm_compute; reflexivity).
  destruct (upgrade_keeps_head_detectable demoCore db hashH demo_scheme_ok
              Hget) as (Hl & Hh & _).
  split; [vm_compute; reflexivity|]. split; [exact Hl|].
  etransitivity; [exact Hh|]. vm_compute. reflexivity.
Defined.

(** X9: however a run of the migrator ends, the record under a key that
    is neither a legacy key nor the key of a total-difficulty, body or
    header record is as before: canonical hashes, receipts, markers and
    anything else in the store are left alone. *)
Theorem upgrade_leaves_foreign_keys
    (C : CoreDb) (db : Database) (k : list ascii) :
  ¬ blockPrefix `prefix_of` k →
  (∀ h, k ≠ tdKey C h ∧ k ≠ bodyKey C h ∧ k ≠ headerKey C h) →
  data (db_of (upgradeChainDatabase C db)) !! k = data db !! k.
Proof.
  intros Hp Hk. apply (upgradeChainDatabase_framed C db k).
  split; assumption.
Qed.

Lemma upgrade_leaves_foreign_keys_witness :
  data (db_of (upgradeChainDatabase demoCore (legacy_store LDBDatabase ∅ ∅)))
    !! versionKey
  = data (legacy_store LDBDatabase ∅ ∅) !! versionKey.
Proof.
  apply (upgrade_leaves_foreign_keys demoCore).
  - intros [k Hk]. discriminate.
  - intros h. repeat split; discriminate.
Defined.

(** ** More on the bloom index builder *)

Module BloomMore.
Import Ed Views BloomFacts.

Section BloomIndex.
Variable B : BloomDb.

Local Abbreviation keys_ok := (keys_ok B).
Local Abbreviation missing := (missing B).
Local Abbreviation InvB := (InvB B).



(** The walk keeps its invariant however it ends. *)
Lemma bloom_loop_InvB db0 number :
  ∀ fuel cur db,
    InvB db0 db → InvB db0 (db_of (bloom_loop B fuel cur number db)).
Proof.
  induction fuel as [|fuel IH]; intros cur db HI; [exact HI|].
  cbn [bloom_loop]. destruct (cur <=? number)%N; [|exact HI].
  cbv zeta.
  destruct (decide (GetCanonicalHash B db cur = zeroHash)); [exact HI|].
  apply IH, InvB_write, HI.
Qed.

Lemma bloom_body_InvB fuel db : InvB db (db_of (bloom_body B fuel db)).
Proof.
  unfold bloom_body.
  destruct (GetBlock B db (GetHeadBlockHash B db));
    [apply bloom_loop_InvB|]; apply InvB_refl.
Qed.





(** The record of the version marker after any run: as before, or the
    encoded version after a run that returned nil. *)
Lemma marker_cases fuel db :
  (∀ j, mipmapKey B j ≠ versionKey) →
  let out := addMipmapBloomBins B fuel db in
  data (db_of out) !! versionKey = data db !! versionKey
  ∨ (out = Returned None (db_of out)
     ∧ data (db_of out) !! versionKey = encodeVersion B mipmapVersion
     ∧ bad_reads (db_of out) = bad_reads db).
Proof.
  intros Hkv out. unfold out, addMipmapBloomBins.
  destruct (version_is_current B db); [now left|].
  pose proof (bloom_body_InvB fuel db) as HI.
  assert (Hd : data (db_of (bloom_body B fuel db)) !! versionKey
               = data db !! versionKey).
  { apply (invb_data _ _ _ HI). intros j Heq. exact (Hkv j (eq_sym Heq)). }
  destruct (bloom_body B fuel db) as [[e|] db1|db1|db1]; simpl in *;
    try (now left).
  destruct (encodeVersion B mipmapVersion) as [val|]; [|now left].
  unfold Put. destruct (decide (versionKey ∈ bad_writes db1)); simpl.
  - now left.
  - right. split; [reflexivity|]. split; [apply lookup_insert_eq|].
    apply (invb_reads _ _ _ HI).
Qed.


(** Any run of the builder: the walk, then at most one write under the
    key of the version marker. *)
Lemma addMipmapBloomBins_steps fuel db :
  ∃ db1,
    InvB db db1
    ∧ (db_of (addMipmapBloomBins B fuel db) = db1
       ∨ ∃ o,
           op_key o = versionKey
           ∧ oplog (db_of (addMipmapBloomBins B fuel db)) = oplog db1 ++ [o]
           ∧ ∀ k, k ≠ versionKey →
                  data (db_of (addMipmapBloomBins B fuel db)) !! k
                  = data db1 !! k).
Proof.
  unfold addMipmapBloomBins.
  destruct (version_is_current B db).
  { exists db. split; [apply InvB_refl|now left]. }
  exists (db_of (bloom_body B fuel db)).
  split; [apply bloom_body_InvB|].
  destruct (bloom_body B fuel db) as [[e|] db1|db1|db1]; simpl;
    try (now left).
  destruct (encodeVersion B mipmapVersion) as [val|]; [|now left].
  unfold Put. destruct (decide (versionKey ∈ bad_writes db1)); simpl.
  - right. exists (OpFailed versionKey). repeat split; reflexivity.
  - right. exists (OpPut versionKey val). split; [reflexivity|].
    split; [reflexivity|]. intros k Hk.
    apply lookup_insert_ne. now apply not_eq_sym.
Qed.

End BloomIndex.
End BloomMore.

(** ** More properties of the bloom index builder *)

Import BloomMore.





(** X12: when the encoded version is not empty and decodes to the
    version, and the store can read the key of the marker, a run of the
    builder that returned without error leaves the marker current: the
    next run, whatever its fuel, returns without error at once and
    leaves the store, its log included, as it is. *)
Theorem bloom_index_second_run_is_noop
    (B : BloomDb) (fuel fuel' : nat) (db db' : Database) :
  (∀ val, encodeVersion B mipmapVersion = Some val →
          val ≠ [] ∧ decodeVersion B val = Some mipmapVersion) →
  versionKey ∉ bad_reads db →
  addMipmapBloomBins B fuel db = Returned None db' →
  version_is_current B db' = true
  ∧ addMipmapBloomBins B fuel' db' = Returned None db'.
Proof.
  intros Hcodec Hr Hrun.
  assert (Hcur : version_is_current B db' = true).
  { unfold addMipmapBloomBins in Hrun.
    destruct (version_is_current B db) eqn:Hver.
    { now injection Hrun as <-. }
    pose proof (bloom_body_InvB B fuel db) as HI.
    destruct (bloom_body B fuel db) as [[e|] db1|db1|db1];
      simpl in Hrun, HI; try discriminate.
    destruct (encodeVersion B mipmapVersion) as [val|] eqn:Henc;
      [|discriminate].
    destruct (Hcodec val eq_refl) as [Hne Hdec].
    unfold Put in Hrun.
    destruct (decide (versionKey ∈ bad_writes db1)); [discriminate|].
    injection Hrun as <-.
    unfold version_is_current, Get. simpl.
    rewrite (invb_reads _ _ _ HI), decide_False by exact Hr.
    rewrite lookup_insert_eq.
    destruct val; [contradiction|]. now apply bool_decide_eq_true_2. }
  split; [exact Hcur|]. unfold addMipmapBloomBins. now rewrite Hcur.
Qed.

Lemma bloom_index_second_run_is_noop_witness :
  let db' := db_of (addMipmapBloomBins demoBloom 4 (whole_chain ∅)) in
  version_is_current demoBloom db' = true
  ∧ addMipmapBloomBins demoBloom 0 db' = Returned None db'.
Proof.
  intros db'.
  apply (bloom_index_second_run_is_noop demoBloom 4 0 (whole_chain ∅) db').
  - intros val Hval. vm_compute in Hval. injection Hval as <-.
    split; [discriminate|reflexivity].
  - vm_compute. intros H; discriminate H.
  - vm_compute. reflexivity.
Defined.

(** X13: however a run of the builder ends and whatever its fuel, every
    write it asked the store for is under the key of a bloom bin or under
    the key of the version marker, and the record under any other key
    (the head pointer, the canonical hashes, blocks, receipts) is as
    before. *)
Theorem bloom_index_writes_only_bins_and_marker
    (B : BloomDb) (fuel : nat) (db : Database) :
  let out := addMipmapBloomBins B fuel db in
  (∀ o, o ∈ new_ops db (db_of out) →
        op_key o = versionKey ∨ ∃ j, op_key o = mipmapKey B j)
  ∧ (∀ k, k ≠ versionKey → (∀ j, k ≠ mipmapKey B j) →
          data (db_of out) !! k = data db !! k).
Proof.
  intros out.
  destruct (addMipmapBloomBins_steps B fuel db)
    as (db1 & [_ _ Hd (ops & Hlog & Hops)] & Hcases).
  fold out in Hcases. rewrite Forall_forall in Hops.
  destruct Hcases as [->|(o1 & Hkey & Hlog1 & Hd1)]; split.
  - intros o Hin. unfold new_ops in Hin.
    rewrite Hlog, drop_app_length in Hin. right. now apply Hops.
  - intros k _ Hk. now apply Hd.
  - intros o Hin. unfold new_ops in Hin.
    rewrite Hlog1, Hlog, <- app_assoc, drop_app_length in Hin.
    apply elem_of_app in Hin as [Hin|Hin]; [right; now apply Hops|].
    apply list_elem_of_singleton in Hin as ->. now left.
  - intros k Hv Hk. rewrite (Hd1 k Hv). now apply Hd.
Qed.

(** X14: when no bloom bin shares the key of the version marker, the
    record of the marker differs after a run of the builder only if the
    run returned without error, and it is then the encoded version: a
    run that fails, panics or is cut short leaves the marker as it was,
    so the build is redone. *)
Theorem bloom_marker_changes_only_on_success
    (B : BloomDb) (fuel : nat) (db : Database) :
  (∀ j, mipmapKey B j ≠ versionKey) →
  let out := addMipmapBloomBins B fuel db in
  data (db_of out) !! versionKey ≠ data db !! versionKey →
  out = Returned None (db_of out)
  ∧ data (db_of out) !! versionKey = encodeVersion B mipmapVersion.
Proof.
  intros Hkv out Hne.
  destruct (marker_cases B fuel db Hkv) as [Heq|(Hout & Hd & _)].
  - contradiction.
  - split; assumption.
Qed.

Lemma bloom_marker_changes_only_on_success_witness :
  let out := addMipmapBloomBins demoBloom 4 (whole_chain ∅) in
  out = Returned None (db_of out)
  ∧ data (db_of out) !! versionKey = Some (bytes_of "2").
Proof.
  apply (bloom_marker_changes_only_on_success demoBloom 4 (whole_chain ∅)).
  - apply demo_keys_ok.
  - vm_compute. intros H; discriminate H.
Defined.

(** ** The list of boot nodes *)

Module BootFacts.
Import EdConfig ConfigViews.

Lemma split_from_app sep b :
  ∀ a cur,
    split_from cur (a +:+ String sep b) sep
    = split_from cur a sep ++ split_from EmptyString b sep.
Proof.
  induction a as [|c a IH]; intros cur; simpl.
  - now rewrite Ascii.eqb_refl.
  - destruct (Ascii.eqb c sep); [now rewrite IH|apply IH].
Qed.

Section Nodes.
Variable Node : Type.
Variable ParseNode : string → option Node.

Lemma parse_urls_acc urls :
  ∀ ns, parse_urls Node ParseNode urls ns = ns ++ parse_urls Node ParseNode urls [].
Proof.
  induction urls as [|url rest IH]; intros ns; simpl.
  - now rewrite app_nil_r.
  - destruct (decide (url = EmptyString)) as [He|He]; [apply IH|].
    destruct (ParseNode url) as [node|]; [|apply IH].
    rewrite (IH (ns ++ [node])), (IH [node]), <- app_assoc. reflexivity.
Qed.

Lemma parse_urls_app urls1 urls2 :
  parse_urls Node ParseNode (urls1 ++ urls2) []
  = parse_urls Node ParseNode urls1 [] ++ parse_urls Node ParseNode urls2 [].
Proof.
  induction urls1 as [|url rest IH]; simpl; [reflexivity|].
  destruct (decide (url = EmptyString)) as [He|He]; [exact IH|].
  destruct (ParseNode url) as [node|]; [|exact IH].
  rewrite (parse_urls_acc (rest ++ urls2)), (parse_urls_acc rest), IH.
  now rewrite <- app_assoc.
Qed.

Lemma parse_urls_none urls :
  Forall (λ url, url = EmptyString ∨ ParseNode url = None) urls →
  parse_urls Node ParseNode urls [] = [].
Proof.
  induction 1 as [|url rest Hurl _ IH]; simpl; [reflexivity|].
  destruct (decide (url = EmptyString)) as [He|He]; [exact IH|].
  destruct Hurl as [Hurl|Hurl]; [contradiction|]. now rewrite Hurl.
Qed.

End Nodes.
End BootFacts.

Import EdConfig ConfigViews BootFacts.

(** X15: the boot nodes of two non-empty lists joined by a space are the
    boot nodes of the first list followed by those of the second. *)
Theorem parseBootNodes_joins
    (Node : Type) (ParseNode : string → option Node)
    (defaultBootNodes : list Node) (cfg : Config) (a b : string) :
  a ≠ EmptyString → b ≠ EmptyString →
  parseBootNodes Node ParseNode defaultBootNodes
    (with_BootNodes cfg (a +:+ " " +:+ b))
  = parseBootNodes Node ParseNode defaultBootNodes (with_BootNodes cfg a)
      ++ parseBootNodes Node ParseNode defaultBootNodes (with_BootNodes cfg b).
Proof.
  intros Ha Hb. unfold parseBootNodes, with_BootNodes. cbn [BootNodes].
  rewrite (decide_False (P := a = EmptyString)) by exact Ha.
  rewrite (decide_False (P := b = EmptyString)) by exact Hb.
  rewrite decide_False by (destruct a; [contradiction|discriminate]).
  unfold Split. change (" " +:+ b) with (String " " b).
  now rewrite split_from_app, parse_urls_app.
Qed.

Lemma parseBootNodes_joins_witness :
  parseBootNodes nat demoParseNode [7] (mkConfig false "a  x b" 3 false)
  = [1; 2].
Proof.
  apply (parseBootNodes_joins nat demoParseNode [7]
           (mkConfig false "" 3 false) "a  x" "b");
    discriminate.
Defined.

(** X16: the default boot nodes stand in for the empty list only.  When
    the list is not empty and none of its fields between spaces is a URL
    that parses (a list of spaces, say), there is no boot node at all. *)
Theorem parseBootNodes_without_valid_url
    (Node : Type) (ParseNode : string → option Node)
    (defaultBootNodes : list Node) (cfg : Config) :
  BootNodes cfg ≠ EmptyString →
  (∀ url, url ∈ Split (BootNodes cfg) " " →
          url = EmptyString ∨ ParseNode url = None) →
  parseBootNodes Node ParseNode defaultBootNodes cfg = [].
Proof.
  intros Hne Hurls. unfold parseBootNodes.
  rewrite decide_False by exact Hne.
  apply parse_urls_none, Forall_forall, Hurls.
Qed.

Lemma parseBootNodes_without_valid_url_witness :
  parseBootNodes nat demoParseNode [7] (mkConfig false "  " 3 false) = [].
Proof.
  apply (parseBootNodes_without_valid_url nat demoParseNode [7]
           (mkConfig false "  " 3 false)).
  - discriminate.
  - intros url Hurl. left. vm_compute in Hurl.
    repeat (apply elem_of_cons in Hurl as [->|Hurl]; [reflexivity|]).
    now apply elem_of_nil in Hurl.
Defined.

(** ** The version of the chain database *)

Module VersionFacts.
Import Ed EdConfig.

Lemma Get_after_Put key value db :
  key ∉ bad_reads db → key ∉ bad_writes db →
  Get (Put key value db).2 key = (value, None).
Proof.
  intros Hr Hw. unfold Put. rewrite decide_False by exact Hw.
  unfold Get. simpl. rewrite decide_False by exact Hr.
  now rewrite lookup_insert_eq.
Qed.

Lemma int_of_uint64_small (v : Z) :
  (0 ≤ v < 2 ^ 63)%Z → int_of_uint64 (Z.to_N v) = v.
Proof.
  intros Hv. unfold int_of_uint64.
  assert (Hlt : (Z.to_N v <? 2 ^ 63)%N = true) by (apply N.ltb_lt; lia).
  rewrite Hlt. lia.
Qed.

End VersionFacts.

Import VersionFacts.

(** X17: the first version stored stays.  On a store that reads and
    writes the key of the version, and with a version whose bytes do not
    read back as zero, saving a version and then another leaves the store
    as the first save left it: a stored version is never overwritten. *)
Theorem saveBlockchainVersion_keeps_first_version
    (Uint : list ascii → N) (IntBytes : Z → list ascii)
    (db : Database) (v v' : Z) :
  bcVersionKey ∉ bad_reads db →
  bcVersionKey ∉ bad_writes db →
  Uint (IntBytes v) ≠ 0%N →
  saveBlockchainVersion Uint IntBytes
    (saveBlockchainVersion Uint IntBytes db v) v'
  = saveBlockchainVersion Uint IntBytes db v.
Proof.
  intros Hr Hw Hv. unfold saveBlockchainVersion. cbv zeta.
  destruct (Uint (Get db bcVersionKey).1 =? 0)%N eqn:Hz.
  - rewrite (Get_after_Put _ _ _ Hr Hw). cbn [fst].
    now rewrite (proj2 (N.eqb_neq _ _) Hv).
  - now rewrite Hz.
Qed.

Lemma saveBlockchainVersion_keeps_first_version_witness :
  let db := mkDb LDBDatabase ∅ ∅ ∅ [] in
  saveBlockchainVersion demoUint demoIntBytes
    (saveBlockchainVersion demoUint demoIntBytes db 3) 4
  = saveBlockchainVersion demoUint demoIntBytes db 3.
Proof.
  intros db.
  apply (saveBlockchainVersion_keeps_first_version demoUint demoIntBytes
           db 3 4).
  - vm_compute. intros H; discriminate H.
  - vm_compute. intros H; discriminate H.
  - vm_compute. discriminate.
Defined.

(** X18: the version check of [New] on a store without a version, which
    reads and writes the key of the version, with a configured version
    between 1 and 2^63 - 1 whose bytes read back as that version: the
    check passes and stores the version; from then on the check passes
    with the same configured version and leaves the store as it is, and
    fails with the mismatch of the two versions for any other one. *)
Theorem version_check_after_first_start
    (Uint : list ascii → N) (IntBytes : Z → list ascii)
    (config config' : Config) (db : Database) :
  SkipBcVersionCheck config = false →
  SkipBcVersionCheck config' = false →
  bcVersionKey ∉ bad_reads db →
  bcVersionKey ∉ bad_writes db →
  Uint (Get db bcVersionKey).1 = 0%N →
  (0 < BlockChainVersion config < 2 ^ 63)%Z →
  Uint (IntBytes (BlockChainVersion config))
  = Z.to_N (BlockChainVersion config) →
  ∃ db1,
    New_version_check Uint IntBytes config db = (None, db1)
    ∧ data db1 !! bcVersionKey = Some (IntBytes (BlockChainVersion config))
    ∧ New_version_check Uint IntBytes config' db1
      = if decide (BlockChainVersion config' = BlockChainVersion config)
        then (None, db1)
        else (Some (VersionMismatch (BlockChainVersion config)
                                    (BlockChainVersion config')), db1).
Proof.
  intros Hs Hs' Hr Hw Hfresh Hv Hcodec.
  set (v := BlockChainVersion config) in *.
  set (db1 := (Put bcVersionKey (IntBytes v) db).2).
  assert (Hget : Get db1 bcVersionKey = (IntBytes v, None))
    by (apply Get_after_Put; assumption).
  assert (Hrun : New_version_check Uint IntBytes config db = (None, db1)).
  { unfold New_version_check. rewrite Hs. cbv zeta. rewrite Hfresh.
    change (int_of_uint64 0) with 0%Z. rewrite Z.eqb_refl, andb_false_r.
    unfold saveBlockchainVersion. cbv zeta. rewrite Hfresh. reflexivity. }
  exists db1. split; [exact Hrun|]. split.
  { unfold db1, Put. rewrite decide_False by exact Hw. simpl.
    apply lookup_insert_eq. }
  unfold New_version_check. rewrite Hs'. cbv zeta. rewrite Hget. cbn [fst].
  rewrite Hcodec, int_of_uint64_small by lia.
  assert (Hnz : (v =? 0)%Z = false) by (apply Z.eqb_neq; lia).
  rewrite Hnz. cbn [negb]. rewrite andb_true_r.
  destruct (decide (BlockChainVersion config' = v)) as [->|Hne].
  - rewrite Z.eqb_refl. cbn [negb]. f_equal.
    unfold saveBlockchainVersion. cbv zeta. rewrite Hget. cbn [fst].
    rewrite Hcodec.
    assert (Hn : (Z.to_N v =? 0)%N = false) by (apply N.eqb_neq; lia).
    now rewrite Hn.
  - assert (Hneq : (v =? BlockChainVersion config')%Z = false)
      by (apply Z.eqb_neq; congruence).
    now rewrite Hneq.
Qed.

Lemma version_check_after_first_start_witness :
  let db := mkDb LDBDatabase ∅ ∅ ∅ [] in
  ∃ db1,
    New_version_check demoUint demoIntBytes (mkConfig false "" 3 false) db
    = (None, db1)
    ∧ data db1 !! bcVersionKey = Some [ascii_of_N 3]
    ∧ New_version_check demoUint demoIntBytes (mkConfig false "" 4 false) db1
      = (Some (VersionMismatch 3 4), db1).
Proof.
  intros db.
  apply (version_check_after_first_start demoUint demoIntBytes
           (mkConfig false "" 3 false) (mkConfig false "" 4 false) db).
  - reflexivity.
  - reflexivity.
  - vm_compute. intros H; discriminate H.
  - vm_compute. intros H; discriminate H.
  - vm_compute. reflexivity.
  - simpl. lia.
  - vm_compute. reflexivity.
Defined.

(** X19: a failed read of the version is taken for no version.  When
    the store fails to read the key of the version but accepts a write
    to it, and no bytes read as zero, the check of [New] passes whatever
    version is stored and configured, and the configured version is
    written over the stored one. *)
Theorem version_check_overwrites_after_failed_read
    (Uint : list ascii → N) (IntBytes : Z → list ascii)
    (config : Config) (db : Database) :
  SkipBcVersionCheck config = false →
  bcVersionKey ∈ bad_reads db →
  bcVersionKey ∉ bad_writes db →
  Uint [] = 0%N →
  ∃ db1,
    New_version_check Uint IntBytes config db = (None, db1)
    ∧ data db1 !! bcVersionKey = Some (IntBytes (BlockChainVersion config))
    ∧ new_ops db db1
      = [OpPut bcVersionKey (IntBytes (BlockChainVersion config))].
Proof.
  intros Hs Hr Hw Hnil.
  assert (Hget : (Get db bcVersionKey).1 = []).
  { unfold Get. now rewrite decide_True by exact Hr. }
  eexists. split; [|split].
  - unfold New_version_check. rewrite Hs. cbv zeta. rewrite Hget, Hnil.
    change (int_of_uint64 0) with 0%Z. rewrite Z.eqb_refl, andb_false_r.
    unfold saveBlockchainVersion. cbv zeta. rewrite Hget, Hnil.
    cbn [N.eqb]. unfold Put. rewrite decide_False by exact Hw.
    reflexivity.
  - simpl. apply lookup_insert_eq.
  - unfold new_ops. simpl. now rewrite drop_app_length.
Qed.

Lemma version_check_overwrites_after_failed_read_witness :
  let db := mkDb LDBDatabase {[bcVersionKey := [ascii_of_N 3]]}
                 {[bcVersionKey]} ∅ [] in
  ∃ db1,
    New_version_check demoUint demoIntBytes (mkConfig false "" 4 false) db
    = (None, db1)
    ∧ data db1 !! bcVersionKey = Some [ascii_of_N 4]
    ∧ new_ops db db1 = [OpPut bcVersionKey [ascii_of_N 4]].
Proof.
  intros db.
  apply (version_check_overwrites_after_failed_read demoUint demoIntBytes
           (mkConfig false "" 4 false) db).
  - reflexivity.
  - vm_compute. reflexivity.
  - vm_compute. intros H; discriminate H.
  - reflexivity.
Defined.

(** ** The names of the DAG files and the timer loop *)

Module DagFacts.
Import AutoDag ConfigViews DagViews.

Lemma digit_value_hex_digit (n : N) :
  (n < 16)%N → digit_value (hex_digit n) = n.
Proof.
  intros Hn. rewrite <- (N2Nat.id n).
  assert (Hk : N.to_nat n < 16) by lia.
  generalize dependent (N.to_nat n). intros k Hk.
  do 16 (destruct k as [|k]; [reflexivity|]). lia.
Qed.

(** Reading the digits back gives the bytes. *)
Lemma unhex_hex (bs : list ascii) : unhex (hex bs) = bs.
Proof.
  induction bs as [|b bs IH]; [reflexivity|].
  cbn [hex unhex]. rewrite IH. f_equal.
  pose proof (N_ascii_bounded b) as Hb.
  rewrite !digit_value_hex_digit.
  - rewrite <- N.div_mod by discriminate. apply ascii_N_embedding.
  - apply N.mod_lt. discriminate.
  - apply N.Div0.div_lt_upper_bound. exact Hb.
Qed.

Lemma append_inj_l (p x y : string) : p +:+ x = p +:+ y → x = y.
Proof.
  induction p as [|c p IH]; intros Heq; [exact Heq|].
  injection Heq as Heq. now apply IH.
Qed.

Lemma hex_inj (bs1 bs2 : list ascii) : hex bs1 = hex bs2 → bs1 = bs2.
Proof.
  intros Heq. now rewrite <- (unhex_hex bs1), <- (unhex_hex bs2), Heq.
Qed.

Section Dag.
Variable GetSeedHash : N → list ascii.
Variable DefaultDir : string.
Variable Join : string → string → string.

Local Abbreviation dagFiles := (dagFiles GetSeedHash).
Local Abbreviation autodag_loop :=
  (autodag_loop GetSeedHash DefaultDir Join).
Local Abbreviation caused_by := (caused_by GetSeedHash DefaultDir Join).

(** The two names of an epoch, spelled out. *)
Lemma dagFiles_Some epoch names :
  dagFiles epoch = Some names →
  names.1
  = ("full-R23-"
       +:+ hex (take 8 (GetSeedHash ((epoch * epochLength) mod 2 ^ 64)%N)))
  ∧ names.2 = "full-R" +:+ names.1.
Proof.
  unfold AutoDag.dagFiles. cbv zeta.
  destruct (decide (8 ≤ length _)); [|discriminate].
  intros [= <-]. split; reflexivity.
Qed.

(** With [nextEpoch] past the epoch of the events the loop asks for
    nothing. *)
Lemma autodag_loop_idle events e :
  in_epoch e events →
  ∀ n acts, (e < n)%N → (autodag_loop events n acts).1 = acts.
Proof.
  induction 1 as [|ev rest Hev _ IH]; intros n acts Hn; [reflexivity|].
  destruct ev as [b m k|]; [|reflexivity].
  cbn [AutoDag.autodag_loop]. cbv zeta. rewrite Hev.
  assert (Hc : (n <=? e)%N = false) by (apply N.leb_gt; lia).
  rewrite Hc. cbn [andb]. now apply IH.
Qed.

Lemma autodag_loop_epoch events e :
  in_epoch e events →
  ∀ n, makes (autodag_loop events n []).1 ≤ 1
       ∧ removals (autodag_loop events n []).1 ≤ 2.
Proof.
  induction 1 as [|ev rest Hev Hrest IH]; intros n; [(unfold makes, removals; simpl; lia)|].
  destruct ev as [b m k|]; [|(unfold makes, removals; simpl; lia)].
  cbn [AutoDag.autodag_loop]. cbv zeta. rewrite Hev.
  destruct ((n <=? e)%N && (autoDAGepochHeight <? b mod epochLength)%N);
    [|apply IH].
  assert (Hidle : ∀ acts, (autodag_loop rest (e + 1) acts).1 = acts)
    by (intros acts; apply (autodag_loop_idle rest e Hrest); lia).
  destruct (0 <? e)%N.
  - destruct (dagFiles (e - 1)) as [[d f]|]; [|(unfold makes, removals; simpl; lia)].
    destruct (dagFiles (e + 1)) as [[dag full]|]; [|(unfold makes, removals; simpl; lia)].
    destruct m; [destruct k|]; rewrite ?Hidle; (unfold makes, removals; simpl; lia).
  - destruct (dagFiles (e + 1)) as [[dag full]|]; [|(unfold makes, removals; simpl; lia)].
    destruct m; [destruct k|]; rewrite ?Hidle; (unfold makes, removals; simpl; lia).
Qed.

(** Every action of the loop is one the caller had asked before or one
    caused by a timer event. *)
Lemma autodag_loop_caused events :
  ∀ n acts a,
    a ∈ (autodag_loop events n acts).1 →
    a ∈ acts ∨ ∃ b m k, Timer b m k ∈ events ∧ caused_by b a.
Proof.
  induction events as [|ev rest IH]; intros n acts a Ha; [now left|].
  destruct ev as [b m k|]; [|now left].
  assert (Hlater : ∀ n' acts',
            a ∈ (autodag_loop rest n' acts').1 →
            a ∈ acts' ∨ ∃ b' m' k',
                Timer b' m' k' ∈ Timer b m k :: rest ∧ caused_by b' a).
  { intros n' acts' Hin.
    destruct (IH n' acts' a Hin) as [Hacts|(b' & m' & k' & Hev & Hc)];
      [now left|].
    right. exists b', m', k'. split; [now apply list_elem_of_further|].
    exact Hc. }
  cbn [AutoDag.autodag_loop] in Ha. cbv zeta in Ha.
  destruct ((n <=? b / epochLength)%N
            && (autoDAGepochHeight <? b mod epochLength)%N) eqn:Hcond;
    [|now apply Hlater in Ha].
  apply andb_true_iff in Hcond as [_ Hpast]. apply N.ltb_lt in Hpast.
  assert (Hhere : ∀ removes dag full,
            dagFiles (b / epochLength + 1) = Some (dag, full) →
            (∀ r, r ∈ removes → caused_by b r) →
            a ∈ acts ++ removes
                ++ [Stat dag;
                    MakeDAG (((b / epochLength + 1) * epochLength)
                             mod 2 ^ 64)%N] →
            a ∈ acts ∨ ∃ b' m' k',
                Timer b' m' k' ∈ Timer b m k :: rest ∧ caused_by b' a).
  { intros removes dag full Hdag Hrem Hin.
    apply elem_of_app in Hin as [Hin|Hin]; [now left|].
    right. exists b, m, k. split; [apply list_elem_of_here|].
    apply elem_of_app in Hin as [Hin|Hin]; [now apply Hrem|].
    apply elem_of_cons in Hin as [->|Hin].
    { split; [exact Hpast|]. now exists full. }
    apply list_elem_of_singleton in Hin as ->.
    split; [exact Hpast|reflexivity]. }
  assert (Hstat : ∀ removes dag,
            a ∈ acts ++ removes ++ [Stat dag] →
            a ∈ acts ++ removes
                ++ [Stat dag;
                    MakeDAG (((b / epochLength + 1) * epochLength)
                             mod 2 ^ 64)%N]).
  { intros removes dag Hin. rewrite !elem_of_app in *.
    destruct Hin as [Hin|[Hin|Hin]]; [now left|right; now left|].
    right. right. apply list_elem_of_singleton in Hin as ->.
    apply list_elem_of_here. }
  destruct (0 <? b / epochLength)%N eqn:Hpos.
  - apply N.ltb_lt in Hpos.
    destruct (dagFiles (b / epochLength - 1)) as [[d f]|] eqn:Hprev;
      [|now left].
    assert (Hrem : ∀ r, r ∈ [Remove (Join DefaultDir d);
                             Remove (Join DefaultDir f)] →
                        caused_by b r).
    { intros r Hr. split; [exact Hpast|].
      apply elem_of_cons in Hr as [->|Hr].
      { split; [exact Hpos|]. exists d, f. split; [exact Hprev|now left]. }
      apply list_elem_of_singleton in Hr as ->.
      split; [exact Hpos|]. exists d, f. split; [exact Hprev|now right]. }
    destruct (dagFiles (b / epochLength + 1)) as [[dag full]|] eqn:Hdag.
    + destruct m; [destruct k|].
      * apply Hlater in Ha as [Ha|Ha]; [|now right].
        now apply (Hhere _ dag full eq_refl Hrem).
      * now apply (Hhere _ dag full eq_refl Hrem).
      * apply Hlater in Ha as [Ha|Ha]; [|now right].
        now apply (Hhere _ dag full eq_refl Hrem), Hstat.
    + simpl in Ha. apply elem_of_app in Ha as [Ha|Ha]; [now left|].
      right. exists b, m, k. split; [apply list_elem_of_here|].
      now apply Hrem.
  - assert (Hrem : ∀ r : DagAction, r ∈ [] → caused_by b r)
      by (intros r Hr; now apply elem_of_nil in Hr).
    destruct (dagFiles (b / epochLength + 1)) as [[dag full]|] eqn:Hdag.
    + destruct m; [destruct k|].
      * apply Hlater in Ha as [Ha|Ha]; [|now right].
        now apply (Hhere _ dag full eq_refl Hrem).
      * now apply (Hhere _ dag full eq_refl Hrem).
      * apply Hlater in Ha as [Ha|Ha]; [|now right].
        now apply (Hhere _ dag full eq_refl Hrem), Hstat.
    + simpl in Ha. rewrite app_nil_r in Ha. now left.
Qed.

End Dag.
End DagFacts.

Import AutoDag DagViews DagFacts.

(** X20: the names [dagFiles] gives for two epochs.  The first names are
    equal exactly when the first eight bytes of the two seed hashes are;
    so are the second names; and the first name of an epoch is never the
    second name of an epoch. *)
Theorem dagFiles_names_tell_seeds_apart
    (GetSeedHash : N → list ascii) (epoch1 epoch2 : N)
    (names1 names2 : string * string) :
  dagFiles GetSeedHash epoch1 = Some names1 →
  dagFiles GetSeedHash epoch2 = Some names2 →
  (names1.1 = names2.1
   ↔ take 8 (GetSeedHash ((epoch1 * epochLength) mod 2 ^ 64)%N)
     = take 8 (GetSeedHash ((epoch2 * epochLength) mod 2 ^ 64)%N))
  ∧ (names1.2 = names2.2 ↔ names1.1 = names2.1)
  ∧ names1.1 ≠ names2.2.
Proof.
  intros H1 H2.
  apply dagFiles_Some in H1 as [Hd1 Hf1].
  apply dagFiles_Some in H2 as [Hd2 Hf2].
  rewrite Hf1, Hf2, Hd1, Hd2. split; [|split].
  - split; [|now intros ->]. intros [= Heq]. now apply hex_inj.
  - split; [apply append_inj_l|now intros ->].
  - intros Heq. discriminate Heq.
Qed.

Lemma dagFiles_names_tell_seeds_apart_witness :
  (("full-R23-0101010101010101"%string : string)
   = "full-R23-0202020202020202"%string
   ↔ replicate 8 (ascii_of_N 1) = replicate 8 (ascii_of_N 2))
  ∧ (("full-Rfull-R23-0101010101010101"%string : string)
     = "full-Rfull-R23-0202020202020202"%string
     ↔ ("full-R23-0101010101010101"%string : string)
       = "full-R23-0202020202020202"%string)
  ∧ ("full-R23-0101010101010101"%string : string)
    ≠ "full-Rfull-R23-0202020202020202"%string.
Proof.
  apply (dagFiles_names_tell_seeds_apart demoSeedHash 1 2
           ("full-R23-0101010101010101"%string,
            "full-Rfull-R23-0101010101010101"%string)
           ("full-R23-0202020202020202"%string,
            "full-Rfull-R23-0202020202020202"%string));
    vm_compute; reflexivity.
Defined.

(** X21: over timer events that all fall into one epoch, whatever the
    blocks, the answers of the environment and the [nextEpoch] the loop
    starts with, the loop generates a DAG at most once and removes at
    most two files. *)
Theorem autodag_acts_once_per_epoch
    (GetSeedHash : N → list ascii) (DefaultDir : string)
    (Join : string → string → string)
    (events : list DagEvent) (e nextEpoch : N) :
  in_epoch e events →
  makes (autodag_loop GetSeedHash DefaultDir Join events nextEpoch []).1 ≤ 1
  ∧ removals
      (autodag_loop GetSeedHash DefaultDir Join events nextEpoch []).1 ≤ 2.
Proof.
  intros Hev. now apply (autodag_loop_epoch _ _ _ events e).
Qed.

Lemma autodag_acts_once_per_epoch_witness :
  let events := [Timer 40000 true true; Timer 45001 true true;
                 Timer 45002 true true; Timer 59999 true true] in
  makes (autodag_loop demoSeedHash "dir" demoJoin events 0 []).1 ≤ 1
  ∧ removals (autodag_loop demoSeedHash "dir" demoJoin events 0 []).1 ≤ 2.
Proof.
  intros events.
  apply (autodag_acts_once_per_epoch demoSeedHash "dir" demoJoin events 1 0).
  repeat constructor.
Defined.

(** X22: every action of the loop started afresh is caused by one of its
    timer events, at a block past the half of its epoch: a DAG is
    generated for the first block of the epoch after that of the event
    only, a file is removed only if it has one of the two names of the
    epoch before, and the file looked up has the first name of the epoch
    after. *)
Theorem autodag_acts_for_neighbour_epochs
    (GetSeedHash : N → list ascii) (DefaultDir : string)
    (Join : string → string → string)
    (events : list DagEvent) (nextEpoch : N) (a : DagAction) :
  a ∈ (autodag_loop GetSeedHash DefaultDir Join events nextEpoch []).1 →
  ∃ b m k,
    Timer b m k ∈ events ∧ caused_by GetSeedHash DefaultDir Join b a.
Proof.
  intros Ha.
  destruct (autodag_loop_caused _ _ _ events nextEpoch [] a Ha)
    as [Hnil|Hc]; [now apply elem_of_nil in Hnil|exact Hc].
Qed.

Lemma autodag_acts_for_neighbour_epochs_witness :
  ∃ b m k,
    Timer b m k ∈ [Timer 40000 true true; Timer 45001 true true]
    ∧ caused_by demoSeedHash "dir" demoJoin b (MakeDAG 60000).
Proof.
  apply (autodag_acts_for_neighbour_epochs demoSeedHash "dir" demoJoin
           [Timer 40000 true true; Timer 45001 true true] 0 (MakeDAG 60000)).
  apply list_elem_of_lookup. exists 3. vm_compute. reflexivity.
Defined.

(** ** The amount a block issues *)

Module IssueFacts.
Import Core Views ProcessViews IssueViews.

Lemma issued_app evs1 evs2 :
  issued (evs1 ++ evs2) = (issued evs1 + issued evs2)%Z.
Proof.
  induction evs1 as [|[tx res|a v] evs1 IH]; simpl; lia.
Qed.

Lemma issued_applied txs rs : issued (applied txs rs) = 0%Z.
Proof.
  unfold applied. revert rs.
  induction txs as [|tx txs IH]; intros [|r rs]; simpl; auto.
Qed.

Lemma issued_credits bs :
  ∀ vs, length bs = length vs →
        issued (zip_with EvCredit bs vs) = sum_Z vs.
Proof.
  induction bs as [|b bs IH]; intros [|v vs] Hlen; try discriminate;
    [reflexivity|].
  simpl. rewrite IH by (simpl in Hlen; lia). reflexivity.
Qed.

Lemma sum_Z_paid_amounts BlockReward k :
  sum_Z (paid_amounts BlockReward k)
  = (BlockReward + 2 * Z.of_nat k * (BlockReward / 32))%Z.
Proof.
  unfold paid_amounts.
  assert (Hrep : ∀ tl, sum_Z (replicate k (BlockReward / 32)%Z ++ tl)
                       = (Z.of_nat k * (BlockReward / 32) + sum_Z tl)%Z).
  { intros tl. induction k as [|k IH]; [simpl; lia|].
    change (sum_Z (replicate (S k) (BlockReward / 32)%Z ++ tl))
      with ((BlockReward / 32)
            + sum_Z (replicate k (BlockReward / 32)%Z ++ tl))%Z.
    rewrite IH. lia. }
  rewrite Hrep. simpl. lia.
Qed.

End IssueFacts.

Import IssueViews IssueFacts.

(** X23: the amount a block issues does not depend on its uncles'
    numbers.  A run of [Process] that returns no error credits
    [BlockReward + 2 * k * (BlockReward / 32)] in all for a block with
    [k] uncles; a run that returns an error credits nothing. *)
Theorem Process_issues_fixed_amount
    (BlockReward : Z)
    (ApplyMessage :
       StateDB → Z → Header → Transaction → StateDB * Z * (Z + Error))
    (IntermediateRoot : StateDB → string)
    (CreateAddress : Address → N → Address)
    (CreateBloom : list Log → string)
    (block : Block) (m : Mach) :
  ∃ res m',
    Process BlockReward ApplyMessage IntermediateRoot CreateAddress
            CreateBloom block m = Some (res, m')
    ∧ issued (new_events m m')
      = match resErr res with
        | None =>
            (BlockReward
             + 2 * Z.of_nat (length (Uncles block)) * (BlockReward / 32))%Z
        | Some _ => 0%Z
        end.
Proof.
  destruct (Process_full BlockReward ApplyMessage IntermediateRoot
              CreateAddress CreateBloom block m)
    as (m' & rs & _ & _ & [(Hrun & Hlrs & Hev)
                          |(err & pre & tx & post & Hrun & _ & Hlrs & Hev)]).
  - eexists _, m'. split; [exact Hrun|]. simpl.
    unfold new_events. rewrite Hev, drop_app_length.
    rewrite issued_app, issued_applied, issued_credits.
    + rewrite sum_Z_paid_amounts. lia.
    + unfold beneficiaries, paid_amounts.
      now rewrite !length_app, length_fmap, length_replicate.
  - eexists _, m'. split; [exact Hrun|]. simpl.
    unfold new_events. rewrite Hev, drop_app_length.
    rewrite issued_app, issued_applied. reflexivity.
Qed.
